(** * Verification of the augmentation encode/decode adapters of eyeball

    The development embeds the adapters,
    - [megane/augment.py]          as [Module Augment],
    - [megane/augment/albumen.py]  as [Module Albumen],
    - [megane2/augments.py]        as [Module Megane2],
    and the helpers around them,
    - [loop_over_loader] of [src/trainer.py]         as [Module Trainer],
    - the combinators of [eyeball/aug.py]            as [Module Aug],
    - [save_args] of [megane/utils/misc.py]          as [Module Misc],
    - [Normalize] of [eyeball/models/detector.py]    as [Module Detector].

    Python floats are modelled by exact rationals ([Qc]), so "equal up to
    floating-point rounding" reads as equality.  Python lists are Rocq
    lists; where the source shares one list object between several
    references, the references and the store of list objects are explicit.
    A raised exception is the left injection of [result].  A pass of
    [Augmentation.__call__] is followed on a heap of objects.  The generator
    of [loop_over_loader] is run for a bounded number of iterations over
    its loader; the random numbers of [eyeball/aug.py] are drawn from an
    explicit generator state. *)

From Stdlib Require Import QArith Qcanon.
From stdpp Require Import numbers strings gmap fin_maps list.

Set Default Proof Using "Type".
Open Scope Z_scope.

(** ** Python runtime *)

Inductive exn : Set :=
  | AssertionError
  | ValueError
  | IndexError
  | ReferenceError.

#[global] Instance exn_eq_dec : EqDecision exn.
Proof. solve_decision. Defined.

Definition result (A : Type) : Type := exn + A.

Abbreviation Raise := (@inl exn _).
Abbreviation Ok := (@inr exn _).

#[global] Instance result_ret : MRet result := λ A a, Ok a.
#[global] Instance result_bind : MBind result := λ A B f m,
  match m with
  | inl e => inl e
  | inr a => f a
  end.

(** Objects that are passed by reference live in a heap.  A reference
    that names no object of the heap does not occur in Python; reading
    through one raises ReferenceError in the model, and the theorems take
    their references to be live. *)
Definition load {A} (heap : gmap nat A) (r : nat) : result A :=
  from_option Ok (Raise ReferenceError) (heap !! r).

(** [l[i]]: a negative index counts from the end, anything outside
    [-len(l), len(l))] raises IndexError. *)
Definition py_index {A} (l : list A) (i : Z) : result A :=
  let n := Z.of_nat (length l) in
  let j := if bool_decide (i < 0) then i + n else i in
  if bool_decide (0 ≤ j < n)
  then from_option Ok (Raise IndexError) (l !! Z.to_nat j)
  else Raise IndexError.

(** [max(l)]: ValueError on the empty list. *)
Definition py_max (l : list Z) : result Z :=
  match l with
  | [] => Raise ValueError
  | x :: l' => Ok (foldl Z.max x l')
  end.

(** [enumerate(l)] *)
Definition enumerate {A} (l : list A) : list (nat * A) :=
  imap (λ i x, (i, x)) l.

(** [[c for (c, keep) in zip(xs, keeps) if keep]] *)
Definition select {A} (xs : list A) (keeps : list bool) : list A :=
  (filter (λ ck : A * bool, Is_true ck.2) (zip xs keeps)).*1.

(** A [dict] whose values are lists, as an association list in insertion
    order: [d[k].append(v)], with a new key created at the end. *)
Fixpoint dict_append {K V} `{EqDecision K} (k : K) (v : V)
    (d : list (K * list V)) : list (K * list V) :=
  match d with
  | [] => [(k, [v])]
  | (k', vs) :: d' =>
      if decide (k = k') then (k', vs ++ [v]) :: d'
      else (k', vs) :: dict_append k v d'
  end.

(** [toolz.groupby(key, seq)]: the items of [seq] grouped by [key], the
    keys in order of first occurrence, each group in the order of [seq]. *)
Definition groupby {K A} `{EqDecision K} (key : A → K) (seq : list A)
    : list (K * list A) :=
  foldl (λ d item, dict_append (key item) item d) [] seq.

(** [[f(x) for x in l]] where [f] may raise. *)
Fixpoint traverse {A B} (f : A → result B) (l : list A) : result (list B) :=
  match l with
  | [] => Ok []
  | x :: l' => y ← f x; ys ← traverse f l'; Ok (y :: ys)
  end.

(** [d[key]] and [d.pop(key)] on a dictionary without [key] raise
    KeyError, which carries the key. *)
Inductive key_error : Set :=
  | KeyError (key : string).

(** ** Data model *)

Abbreviation point := (Qc * Qc)%type.
Abbreviation polygon := (list (Qc * Qc)).

(** A PIL image: [image.size] is [(width, height)]; the pixel contents are
    an opaque payload.  Width and height are positive: an image without
    pixels is outside the model. *)
Record PILImage : Type := mkImage {
  im_width : positive;
  im_height : positive;
  im_pixels : nat;
}.

(** A numpy image array: [arr.shape[:2]] is [(rows, cols)]. *)
Record ndarray : Type := mkArray {
  arr_rows : positive;
  arr_cols : positive;
  arr_data : nat;
}.

(** [np.array(image)] *)
Definition np_array (im : PILImage) : ndarray :=
  mkArray (im_height im) (im_width im) (im_pixels im).

(** [Image.fromarray(arr)] *)
Definition fromarray (a : ndarray) : PILImage :=
  mkImage (arr_cols a) (arr_rows a) (arr_data a).

(** [image.size] *)
Definition size (im : PILImage) : positive * positive :=
  (im_width im, im_height im).

(** [arr.shape[:2]] *)
Definition shape2 (a : ndarray) : positive * positive :=
  (arr_rows a, arr_cols a).

(** Modelled from the spec: class [Sample] of [megane/data.py], which is
    not among the sources.  Section 3 of the specification gives its
    fields: an image, an ordered sequence of polygons of normalized points,
    one class per box and optional scores, absent when the constructor is
    not given any. *)
Record Sample : Type := mkSample {
  image : PILImage;
  boxes : list polygon;
  classes : list Z;
  scores : option (list Qc);
}.

(** The invariant of section 3: one class, and one score if any, per box. *)
Definition sample_wf (s : Sample) : Prop :=
  length (classes s) = length (boxes s) ∧
  ∀ sc, scores s = Some sc → length sc = length (boxes s).

#[global] Instance PILImage_eq_dec : EqDecision PILImage.
Proof. solve_decision. Defined.
#[global] Instance ndarray_eq_dec : EqDecision ndarray.
Proof. solve_decision. Defined.
#[global] Instance Sample_eq_dec : EqDecision Sample.
Proof. solve_decision. Defined.

(** Modelled from the spec: [utils.denormalize_polygon] and
    [utils.normalize_polygon] of [megane/utils], and [scale_to] and
    [scale_from] of the [simpoly] package, none of which is among the
    sources.  Section 4.1 says that coordinates are scaled by the width
    and height of an image: a normalized point goes to pixel space by
    multiplying x by the width and y by the height, and comes back by
    dividing. *)
Definition scale_to_point (w h : positive) (p : point) : point :=
  ((p.1 * Qc_of_Z (Z.pos w))%Qc, (p.2 * Qc_of_Z (Z.pos h))%Qc).

Definition scale_from_point (w h : positive) (p : point) : point :=
  ((p.1 / Qc_of_Z (Z.pos w))%Qc, (p.2 / Qc_of_Z (Z.pos h))%Qc).

Definition scale_to (poly : polygon) (w h : positive) : polygon :=
  scale_to_point w h <$> poly.

Definition scale_from (poly : polygon) (w h : positive) : polygon :=
  scale_from_point w h <$> poly.

Definition denormalize_polygon : polygon → positive → positive → polygon :=
  scale_to.

Definition normalize_polygon : polygon → positive → positive → polygon :=
  scale_from.

(** [with_batch_mode] of [megane/utils/misc.py], at [batch=True]:
    [[f(x_i, *a) for x_i in x]]. *)
Definition with_batch_mode {A B C D} (f : A → B → C → D)
    (x : list A) (b : B) (c : C) : list D :=
  (λ x_i, f x_i b c) <$> x.

(** ** megane/augment.py *)

Module Augment.

(** The dictionary handed to, and returned by, the transform. *)
Record Dict : Type := mkDict {
  d_image : ndarray;
  d_keypoints : list point;
  d_box_mapping : list Z;
}.

#[global] Instance Dict_eq_dec : EqDecision Dict.
Proof. solve_decision. Defined.

(** One round of the loop of [encode]:
    [keypoints.extend(polygon); masks.extend([i] * len(polygon))]. *)
Definition encode_step (acc : list point * list Z) (ip : nat * polygon)
    : list point * list Z :=
  (acc.1 ++ ip.2, acc.2 ++ replicate (length ip.2) (Z.of_nat ip.1)).

Definition encode (sample : Sample) : Dict :=
  let img := np_array (image sample) in
  let '(w, h) := size (image sample) in
  let boxes := with_batch_mode denormalize_polygon (boxes sample) w h in
  let '(keypoints, masks) := foldl encode_step ([], []) (enumerate boxes) in
  mkDict img keypoints masks.

(** *** The list objects of [decode]

    [[[]] * n] builds one empty list object and a list of [n] references
    to it.  The store maps a reference to the contents of its list
    object; [boxes[mask].append(...)] updates the store. *)
Abbreviation ref := nat (only parsing).

(** [[]]: a new, empty list object. *)
Definition new_list (σ : gmap ref (list point))
    : ref * gmap ref (list point) :=
  let r := fresh (dom σ) in (r, <[r := []]> σ).

(** [[[]] * n]: the inner [[]] is evaluated once, and the outer list holds
    [n] references to that one object. *)
Definition repeat_empty_list (n : nat) (σ : gmap ref (list point))
    : gmap ref (list point) * list ref :=
  let '(r, σ') := new_list σ in (σ', replicate n r).

(** [boxes[mask].append((x, y))] *)
Definition append_at (boxes : list ref) (σ : gmap ref (list point))
    (mask : Z) (xy : point) : result (gmap ref (list point)) :=
  r ← py_index boxes mask;
  Ok (alter (λ l, l ++ [xy]) r σ).

(** The loop [for mask, xy in zip(box_mapping, keypoints)]. *)
Fixpoint group_loop (boxes : list ref) (σ : gmap ref (list point))
    (items : list (Z * point)) : result (gmap ref (list point)) :=
  match items with
  | [] => Ok σ
  | (mask, xy) :: items' =>
      σ' ← append_at boxes σ mask xy;
      group_loop boxes σ' items'
  end.

(** Reading a list through its reference. *)
Definition deref (σ : gmap ref (list point)) (r : ref) : list point :=
  default [] (σ !! r).

Definition decode (sample : Sample) (outputs : Dict) : result Sample :=
  let '(w, h) := size (image sample) in
  let img := fromarray (d_image outputs) in
  let '(σ0, boxes) := repeat_empty_list (length (boxes sample)) ∅ in
  σ ← group_loop boxes σ0 (zip (d_box_mapping outputs) (d_keypoints outputs));
  let keeps := (λ box, bool_decide (2 < length (deref σ box))%nat) <$> boxes in
  let boxes := with_batch_mode normalize_polygon (deref σ <$> boxes) w h in
  let boxes := select boxes keeps in
  let classes := select (classes sample) keeps in
  let scores := (λ sc, select sc keeps) <$> scores sample in
  Ok (mkSample img boxes classes scores).

(** The transform callable of [Augmentation]: from the dictionary built
    by [encode] to the one read by [decode]; it may raise. *)
Definition Transform : Type := Dict → result Dict.

(** *** [Augmentation.__call__] on the heap of objects

    A Sample is an object, and so are the lists it holds and the lists
    that go through the transform: each can be reached from several
    places and changed in place.  The pass is followed on a heap that
    holds them all. *)

(** Modelled from the spec: the layout of a Sample object of
    [megane/data.py], which is not among the sources, after the fields of
    section 3.  Its attributes [boxes], [classes] and [scores] refer to
    list objects ([scores] may be None), [boxes] to a list of polygons,
    each a list object of points; a point is a tuple, which cannot be
    changed.  The other objects are the lists of the transform's
    dictionary.  The helpers [utils.denormalize_polygon] and
    [utils.normalize_polygon] return new lists and change none (section
    5: pure-data transforms, no shared mutable state). *)
Inductive object : Type :=
  | SampleObj (image : PILImage) (boxes classes : ref) (scores : option ref)
  | PolygonsObj (polygons : list ref)
  | PointsObj (points : list point)
  | IntsObj (items : list Z)
  | FloatsObj (items : list Qc).

#[global] Instance object_eq_dec : EqDecision object.
Proof. solve_decision. Defined.

(** Reading an object of a given kind.  A reference that names no such
    object does not occur in Python; in the model the reading raises
    ReferenceError. *)
Definition get_points (heap : gmap ref object) (r : ref)
    : result (list point) :=
  match heap !! r with
  | Some (PointsObj points) => Ok points
  | _ => Raise ReferenceError
  end.

Definition get_ints (heap : gmap ref object) (r : ref) : result (list Z) :=
  match heap !! r with
  | Some (IntsObj items) => Ok items
  | _ => Raise ReferenceError
  end.

Definition get_floats (heap : gmap ref object) (r : ref) : result (list Qc) :=
  match heap !! r with
  | Some (FloatsObj items) => Ok items
  | _ => Raise ReferenceError
  end.

Definition get_polygons (heap : gmap ref object) (r : ref)
    : result (list polygon) :=
  match heap !! r with
  | Some (PolygonsObj polygons) => traverse (get_points heap) polygons
  | _ => Raise ReferenceError
  end.

Definition get_scores (heap : gmap ref object) (scores : option ref)
    : result (option (list Qc)) :=
  match scores with
  | None => Ok None
  | Some r => items ← get_floats heap r; Ok (Some items)
  end.

(** What the attributes of a Sample object hold. *)
Definition get_sample (heap : gmap ref object) (r : ref) : result Sample :=
  match heap !! r with
  | Some (SampleObj img boxes classes scores) =>
      boxes ← get_polygons heap boxes;
      classes ← get_ints heap classes;
      scores ← get_scores heap scores;
      Ok (mkSample img boxes classes scores)
  | _ => Raise ReferenceError
  end.

(** A new object. *)
Definition new_object (o : object) (heap : gmap ref object)
    : ref * gmap ref object :=
  let r := fresh (dom heap) in (r, <[r := o]> heap).

Fixpoint new_objects (os : list object) (heap : gmap ref object)
    : list ref * gmap ref object :=
  match os with
  | [] => ([], heap)
  | o :: os' =>
      let '(r, heap) := new_object o heap in
      let '(rs, heap) := new_objects os' heap in
      (r :: rs, heap)
  end.

(** The dictionary that goes through the transform: the image array and
    the references of the lists under ['keypoints'] and
    ['box_mapping']. *)
Record DictObj : Type := mkDictObj {
  o_image : ndarray;
  o_keypoints : ref;
  o_box_mapping : ref;
}.

(** [encode(sample)]: the attributes of [sample] are read, and [masks]
    and [keypoints] are new lists, filled as [encode] fills them. *)
Definition encode_obj (sample : ref) (heap : gmap ref object)
    : result (DictObj * gmap ref object) :=
  s ← get_sample heap sample;
  let enc := encode s in
  let '(masks, heap) := new_object (IntsObj (d_box_mapping enc)) heap in
  let '(keypoints, heap) := new_object (PointsObj (d_keypoints enc)) heap in
  Ok (mkDictObj (d_image enc) keypoints masks, heap).

(** The transform callable of [Augmentation] on the heap: it is handed
    the dictionary of [encode], may change objects and make new ones,
    and returns a dictionary; it may raise. *)
Definition Callable : Type :=
  DictObj → gmap ref object → result (DictObj * gmap ref object).

(** [decode(sample, outputs)]: the attributes of [sample] and the lists of
    [outputs] are read; the lists made by [utils.normalize_polygon] and by
    the three list comprehensions, and the [Sample(...)] that ends
    [decode], are new objects.  (The shared list of [decode] does not
    outlive the call: it stays in the store of [decode].) *)
Definition decode_obj (sample : ref) (outputs : DictObj)
    (heap : gmap ref object) : result (ref * gmap ref object) :=
  s ← get_sample heap sample;
  keypoints ← get_points heap (o_keypoints outputs);
  box_mapping ← get_ints heap (o_box_mapping outputs);
  dec ← decode s (mkDict (o_image outputs) keypoints box_mapping);
  let '(polygons, heap) := new_objects (PointsObj <$> boxes dec) heap in
  let '(boxes, heap) := new_object (PolygonsObj polygons) heap in
  let '(classes, heap) := new_object (IntsObj (classes dec)) heap in
  let '(scores, heap) :=
    match scores dec with
    | None => (None, heap)
    | Some items =>
        let '(r, heap) := new_object (FloatsObj items) heap in (Some r, heap)
    end in
  Ok (new_object (SampleObj (image dec) boxes classes scores) heap).

(** [Augmentation.__call__(self, sample)]: the reference of the Sample
    it returns, and the heap afterwards. *)
Definition Augmentation_call (transform : Callable) (sample : ref)
    (heap : gmap ref object) : result (ref * gmap ref object) :=
  '(enc, heap) ← encode_obj sample heap;
  '(enc, heap) ← transform enc heap;
  decode_obj sample enc heap.

End Augment.

(** ** megane/augment/albumen.py *)

Module Albumen.

Record Dict : Type := mkDict {
  d_image : ndarray;
  d_keypoints : list point;
  d_box_mapping : list Z;
  d_classes : list Z;
}.

#[global] Instance Dict_eq_dec : EqDecision Dict.
Proof. solve_decision. Defined.

(** [idendity]: the keyword arguments, as they came. *)
Definition idendity (kw : Dict) : Dict := kw.

(** One round of the loop of [encode]. *)
Definition encode_step (w h : positive) (acc : list point * list Z)
    (ip : nat * polygon) : list point * list Z :=
  let polygon := scale_to ip.2 w h in
  (acc.1 ++ polygon, acc.2 ++ replicate (length polygon) (Z.of_nat ip.1)).

Definition encode (sample : Sample) : result Dict :=
  let img := np_array (image sample) in
  let classes := classes sample in
  let boxes := boxes sample in
  let '(h, w) := shape2 img in
  let '(keypoints, masks) :=
    foldl (encode_step w h) ([], []) (enumerate boxes) in
  m ← py_max masks;
  if bool_decide (m = Z.of_nat (length classes) - 1)
  then Ok (mkDict img keypoints masks classes)
  else Raise AssertionError.

(** One round of the loop of [decode] over [groups.items()]. *)
Definition decode_step (xy : list point) (classes : list Z) (w h : positive)
    (acc : list polygon * list Z) (g : Z * list (nat * Z))
    : result (list polygon * list Z) :=
  let '(i, idx) := g in
  pts ← traverse (λ jm : nat * Z, py_index xy (Z.of_nat jm.1)) idx;
  let box := scale_from pts w h in
  if bool_decide (2 < length box)%nat
  then c ← py_index classes i; Ok (acc.1 ++ [box], acc.2 ++ [c])
  else Ok acc.

Fixpoint decode_loop (xy : list point) (classes : list Z) (w h : positive)
    (acc : list polygon * list Z) (groups : list (Z * list (nat * Z)))
    : result (list polygon * list Z) :=
  match groups with
  | [] => Ok acc
  | g :: groups' =>
      acc' ← decode_step xy classes w h acc g;
      decode_loop xy classes w h acc' groups'
  end.

Definition decode (outputs : Dict) : result Sample :=
  let img := fromarray (d_image outputs) in
  let '(w, h) := size img in
  let classes := d_classes outputs in
  let masks := d_box_mapping outputs in
  let xy := d_keypoints outputs in
  let groups := groupby (λ i : nat * Z, i.2) (enumerate masks) in
  '(boxes, out_classes) ← decode_loop xy classes w h ([], []) groups;
  if bool_decide (length boxes = length out_classes)
  then Ok (mkSample img boxes out_classes None)
  else Raise AssertionError.

End Albumen.

(** ** megane2/augments.py *)

Module Megane2.

(** An annotation is a dictionary object: its ['polygons'] entry and
    whatever other entries it carries. *)
Record Annotation : Type := mkAnnotation {
  polygons : list polygon;
  others : gmap string Z;
}.

#[global] Instance Annotation_eq_dec : EqDecision Annotation.
Proof. solve_decision. Defined.

(** Annotation objects live in a heap and are passed by reference. *)
Abbreviation loc := nat (only parsing).

(** What a transform returns under ['keypoints']: an ndarray of shape
    [(M, 2)], as the one the transform is handed (which it may hand
    back), or a Python list of [M] pairs. *)
Inductive Keypoints : Type :=
  | KArray (rows : list point)
  | KList (items : list point).

#[global] Instance Keypoints_eq_dec : EqDecision Keypoints.
Proof. solve_decision. Defined.

(** The pairs that a transform's keypoints hold. *)
Definition keypoints_rows (kps : Keypoints) : list point :=
  match kps with
  | KArray rows => rows
  | KList items => items
  end.

(** The transform callable: from [image] and [keypoints], an ndarray of
    shape [(N, 2)], to the ['image'] and ['keypoints'] of its result; it
    may raise. *)
Definition Transform : Type :=
  ndarray → list point → result (ndarray * Keypoints).

(** [np.array(annotation['polygons'])] followed by [.reshape(-1, 2)]:
    the number of polygons ([shape[0]]) and the rows of the reshaped
    array.  A nesting that is not rectangular is refused by numpy
    (ValueError, as numpy 1.24 and later do). *)
Definition np_array_reshape (ps : list polygon) : result (nat * list point) :=
  match ps with
  | [] => Ok (0%nat, [])
  | p :: ps' =>
      if forallb (λ p', bool_decide (length p' = length p)) ps'
      then Ok (length ps, concat ps)
      else Raise ValueError
  end.

(** [np.array(result['keypoints'])] and the slices [polygons[:, 0]] and
    [polygons[:, 1]]: an ndarray of shape [(M, 2)] stays one, [M = 0]
    included, and a list of [M > 0] pairs becomes one; the empty list
    becomes an array of shape [(0,)], on which [polygons[:, 0]] raises
    IndexError. *)
Definition np_array_keypoints (kps : Keypoints) : result (list point) :=
  match kps with
  | KArray rows => Ok rows
  | KList [] => Raise IndexError
  | KList items => Ok items
  end.

(** The rows of an array of shape [(4 * n, 2)] cut into [n] polygons. *)
Fixpoint chunks4 (n : nat) (rows : list point) : list polygon :=
  match n with
  | O => []
  | S n' => take 4 rows :: chunks4 n' (drop 4 rows)
  end.

(** [polygons.reshape(num_polygons, 4, 2)]: ValueError unless the array
    has [num_polygons * 4 * 2] elements. *)
Definition reshape_n_4_2 (num_polygons : nat) (rows : list point)
    : result (list polygon) :=
  if bool_decide (length rows = 4 * num_polygons)%nat
  then Ok (chunks4 num_polygons rows)
  else Raise ValueError.

(** [Augment.__call__(self, image, annotation)] on a heap of annotation
    objects: the returned image, the returned reference and the heap
    afterwards. *)
Definition Augment_call (transform : option Transform) (img : PILImage)
    (annotation : loc) (heap : gmap loc Annotation)
    : result (PILImage * loc * gmap loc Annotation) :=
  match transform with
  | None => Ok (img, annotation, heap)
  | Some transform =>
      ann ← load heap annotation;
      let '(width, height) := size img in
      '(num_polygons, rows) ← np_array_reshape (polygons ann);
      let rows := scale_to_point width height <$> rows in
      '(res_image, res_keypoints) ← transform (np_array img) rows;
      let img' := fromarray res_image in
      rows' ← np_array_keypoints res_keypoints;
      let rows' := scale_from_point width height <$> rows' in
      polys ← reshape_n_4_2 num_polygons rows';
      Ok (img', annotation,
          <[annotation := mkAnnotation polys (others ann)]> heap)
  end.

(** [no_augment()] *)
Definition no_augment : option Transform := None.

(** [Augment.from_string(augment)]: the dictionary of the four names is
    indexed by [augment] and the function found is called.
    [default_augment] is the [A.Compose] that [default_augment()] builds
    (at its default [p=0.3]); the dataclass [Augment] is its one field. *)
Definition from_string (default_augment : Transform) (augment : string)
    : key_error + option Transform :=
  let d : gmap string (option Transform) :=
    <["default" := Some default_augment]>
      (<["none" := no_augment]>
         (<["yes" := Some default_augment]>
            (<["no" := no_augment]> ∅))) in
  match d !! augment with
  | Some transform => inr transform
  | None => inl (KeyError augment)
  end.

End Megane2.

(** ** src/trainer.py *)

Module Trainer.

Section loop_over_loader.
Context {B : Type}.

(** [for batch in loader]: one pass over the batches, from step count
    [step].  The result is what the pass yields, the step count after it
    and whether [return] was reached. *)
Fixpoint for_batches (n : Z) (step : Z) (batches : list B)
    : list (Z * B) * Z * bool :=
  match batches with
  | [] => ([], step, false)
  | batch :: batches' =>
      let step := step + 1 in
      if bool_decide (step >= n) then ([(step, batch)], step, true)
      else
        let '(ys, step', returned) := for_batches n step batches' in
        ((step, batch) :: ys, step', returned)
  end.

(** [while True]: every round iterates over [loader] anew; [loader k] is
    the list of batches that the [k]-th iteration gives (a list gives the
    same batches every time, a shuffling DataLoader need not, an iterator
    that is used up gives none).  [fuel] bounds the number of rounds: the
    result is what the generator yields within them and whether it has
    returned. *)
Fixpoint loop_from (fuel : nat) (loader : nat → list B) (n : Z)
    (round : nat) (step : Z) : list (Z * B) * bool :=
  match fuel with
  | O => ([], false)
  | S fuel' =>
      let '(ys, step', returned) := for_batches n step (loader round) in
      if returned then (ys, true)
      else
        let '(zs, r) := loop_from fuel' loader n (S round) step' in
        (ys ++ zs, r)
  end.

Definition loop_over_loader (fuel : nat) (loader : nat → list B) (n : Z)
    : list (Z * B) * bool :=
  loop_from fuel loader n 0 0.

End loop_over_loader.

End Trainer.

(** ** eyeball/aug.py *)

Module Aug.

Section aug.
Context {Img R : Type}.

(** The generator of the [random] module, with state [R]:
    [random.random()] gives a float, [random.choice(seq)] draws an index
    below [len(seq)]. *)
Variable random : R → Qc * R.
Variable randbelow : nat → R → nat * R.

(** A function on images that may draw random numbers and may raise. *)
Definition Fn : Type := Img → R → result (Img * R).

(** [random.choice(seq)]: IndexError on an empty sequence. *)
Definition choice {A} (seq : list A) (r : R) : result (A * R) :=
  match seq with
  | [] => Raise IndexError
  | _ =>
      let '(i, r') := randbelow (length seq) r in
      x ← py_index seq (Z.of_nat i);
      Ok (x, r')
  end.

Definition sometime (f : Fn) (p : Qc) : Fn :=
  λ image r,
    let '(x, r') := random r in
    if decide (x < p)%Qc then f image r' else Ok (image, r').

Definition oneof (fs : list Fn) : Fn :=
  λ image r, '(f, r') ← choice fs r; f image r'.

(** [for f in fs: image = f(image)] *)
Fixpoint for_each (fs : list Fn) : Fn :=
  λ image r,
    match fs with
    | [] => Ok (image, r)
    | f :: fs' => '(image', r') ← f image r; for_each fs' image' r'
    end.

Definition random_apply (fs : list Fn) (p : Qc) : Fn :=
  let fs := (λ f, sometime f p) <$> fs in
  for_each fs.

Definition randomized {P} (f : Img → P → R → result (Img * R))
    (ps : list P) : Fn :=
  λ image r, '(p, r') ← choice ps r; f image p r'.

(** A function of PIL, such as [ImageOps.invert]: it draws nothing and
    does not raise. *)
Definition pure_fn (g : Img → Img) : Fn := λ image r, Ok (g image, r).

End aug.

End Aug.

(** ** megane/utils/misc.py *)

Module Misc.

Section save_args.
Context {V : Type}.

(** [namespace.pop(key)] *)
Definition pop (key : string) (namespace : gmap string V)
    : key_error + (V * gmap string V) :=
  match namespace !! key with
  | Some v => inr (v, delete key namespace)
  | None => inl (KeyError key)
  end.

(** [save_args()], called in a frame whose local variables are
    [f_locals]; [attrs] is the attribute dictionary of the object that
    the local [self] names, and the result is that dictionary
    afterwards. *)
Definition save_args (f_locals : gmap string V) (attrs : gmap string V)
    : key_error + gmap string V :=
  match pop "self" f_locals with
  | inl e => inl e
  | inr (_, namespace) =>
      let namespace :=
        match pop "__class__" namespace with
        | inl _ => namespace
        | inr (_, namespace') => namespace'
        end in
      inr (map_fold (λ k v attrs, <[k := v]> attrs) attrs namespace)
  end.

End save_args.

End Misc.

(** ** eyeball/models/detector.py *)

Module Detector.

(** [Normalize.forward(image)]: [(image - 0.5) * 2] on every element of
    the tensor, here the list of its elements. *)
Definition Normalize_forward (image : list Qc) : list Qc :=
  (λ x, ((x - Q2Qc (1 # 2)) * Q2Qc (2 # 1))%Qc) <$> image.

End Detector.

(** ** Concrete inputs *)

(** The rational [n/d]. *)
Definition q (n : Z) (d : positive) : Qc := Q2Qc (n # d).

Definition tri_a : polygon :=
  [(q 0 1, q 0 1); (q 1 2, q 0 1); (q 1 2, q 1 2)].

Definition tri_b : polygon :=
  [(q 1 2, q 1 2); (q 1 1, q 1 2); (q 1 1, q 1 1)].

Definition segment : polygon :=
  [(q 0 1, q 0 1); (q 1 1, q 1 1)].

Definition quad : polygon :=
  [(q 0 1, q 0 1); (q 1 1, q 0 1); (q 1 1, q 1 1); (q 0 1, q 1 1)].

(** [quad] moved to the right by a quarter of the width. *)
Definition quad_moved : polygon :=
  [(q 1 4, q 0 1); (q 5 4, q 0 1); (q 5 4, q 1 1); (q 1 4, q 1 1)].

(** Two triangles on an image 4 wide and 2 high, with classes and scores. *)
Definition two_triangles : Sample :=
  mkSample (mkImage 4 2 0) [tri_a; tri_b] [7; 8] (Some [q 9 10; q 4 5]).

(** A triangle and a polygon of two points. *)
Definition triangle_and_segment : Sample :=
  mkSample (mkImage 4 2 0) [tri_a; segment] [7; 8] (Some [q 9 10; q 4 5]).

(** One box and two classes: the invariant of the data model is broken. *)
Definition one_box_two_classes : Sample :=
  mkSample (mkImage 4 2 0) [tri_a] [7; 8] None.

(** A triangle followed by a polygon without points. *)
Definition triangle_and_nothing : Sample :=
  mkSample (mkImage 4 2 0) [tri_a; []] [7; 8] None.

(** An image without annotations. *)
Definition no_boxes : Sample := mkSample (mkImage 4 2 0) [] [] None.

(** A transform output for [two_triangles] in which the transform removed
    every point of the second box. *)
Definition second_box_lost : Augment.Dict :=
  Augment.mkDict (mkArray 2 4 0) (scale_to tri_a 4 2) [0; 0; 0].

(** One triangle with corners on the border of a 4 by 2 image. *)
Definition corner_triangle : Sample :=
  mkSample (mkImage 4 2 0)
    [[(q 0 1, q 0 1); (q 1 1, q 0 1); (q 1 1, q 1 1)]] [7] None.

(** What a quarter turn ([A.RandomRotate90]) returns for
    [corner_triangle]: an image 2 wide and 4 high, and the pixel
    [(x, y)] moved to [(y, 4 - x)]. *)
Definition quarter_turn : Augment.Dict :=
  Augment.mkDict (mkArray 4 2 0)
    [(q 0 1, q 4 1); (q 0 1, q 0 1); (q 2 1, q 0 1)] [0; 0; 0].

(** Transforms for [Megane2.Augment_call]: one that returns the image and
    the array of keypoints it was given, and two that return a list of
    pairs, with every keypoint moved one pixel to the right, and with
    every keypoint twice. *)
Definition same_keypoints : Megane2.Transform :=
  λ im kps, Ok (im, Megane2.KArray kps).

Definition shift_right : Megane2.Transform :=
  λ im kps,
    Ok (im, Megane2.KList ((λ p : point, ((p.1 + 1)%Qc, p.2)) <$> kps)).

Definition twice : Megane2.Transform :=
  λ im kps, Ok (im, Megane2.KList (kps ++ kps)).

(** A heap with one annotation, of one quadrilateral. *)
Definition quad_heap : gmap nat Megane2.Annotation :=
  {[ 0%nat := Megane2.mkAnnotation [quad] ∅ ]}.

(** A heap with one annotation, of one polygon of two points. *)
Definition segment_heap : gmap nat Megane2.Annotation :=
  {[ 0%nat := Megane2.mkAnnotation [segment] ∅ ]}.

(** A heap that holds [two_triangles] as a Sample object at reference 0,
    with its lists. *)
Definition sample_heap : gmap nat Augment.object :=
  <[0%nat := Augment.SampleObj (mkImage 4 2 0) 1%nat 4%nat (Some 5%nat)]>
    (<[1%nat := Augment.PolygonsObj [2%nat; 3%nat]]>
       (<[2%nat := Augment.PointsObj tri_a]>
          (<[3%nat := Augment.PointsObj tri_b]>
             (<[4%nat := Augment.IntsObj [7; 8]]>
                (<[5%nat := Augment.FloatsObj [q 9 10; q 4 5]]> ∅))))).

(** A transform on the heap that moves every keypoint one pixel to the
    right by changing the list of keypoints in place, and returns the
    dictionary it was given. *)
Definition move_in_place : Augment.Callable :=
  λ enc heap,
    keypoints ← Augment.get_points heap (Augment.o_keypoints enc);
    let moved := (λ p : point, ((p.1 + 1)%Qc, p.2)) <$> keypoints in
    Ok (enc, <[Augment.o_keypoints enc := Augment.PointsObj moved]> heap).

(** The transform, on dictionaries of values, that returns its input. *)
Definition same_dict : Augment.Transform := λ d, Ok d.

(** A generator of random numbers for the examples: [random.random()]
    gives one half every time, and the index drawn by [random.choice]
    goes round the sequence. *)
Definition half_random : nat → Qc * nat := λ r, (q 1 2, S r).

Definition round_robin : nat → nat → nat * nat :=
  λ n r, ((r mod n)%nat, S r).

(** Two functions on images for the examples, an image being a number. *)
Definition brighter : Aug.Fn (Img:=nat) (R:=nat) := Aug.pure_fn S.

Definition doubled : Aug.Fn (Img:=nat) (R:=nat) := Aug.pure_fn (Nat.mul 2).

(** A loader of two batches, the same at every iteration, and one
    without batches. *)
Definition two_batches : nat → list nat := λ _, [10; 20]%nat.

Definition no_batches : nat → list nat := λ _, [].

(** The local variables of [__init__(self, a, b)] in a class that uses
    [super()], and of a function without [self]. *)
Definition init_locals : gmap string Z :=
  <["self" := 0]> (<["__class__" := 1]> (<["a" := 10]> (<["b" := 20]> ∅))).

Definition plain_locals : gmap string Z := <["a" := 10]> ∅.

(** Heaps with one annotation: without polygons, and with a quadrilateral
    and a polygon of two points. *)
Definition empty_heap : gmap nat Megane2.Annotation :=
  {[ 0%nat := Megane2.mkAnnotation [] ∅ ]}.

Definition ragged_heap : gmap nat Megane2.Annotation :=
  {[ 0%nat := Megane2.mkAnnotation [quad; segment] ∅ ]}.

(** What [Albumen.encode] returns for [two_triangles] and for
    [triangle_and_segment]. *)
Definition two_triangles_encoded : Albumen.Dict :=
  Albumen.mkDict (mkArray 2 4 0) (scale_to (tri_a ++ tri_b) 4 2)
    [0; 0; 0; 1; 1; 1] [7; 8].

Definition triangle_and_segment_encoded : Albumen.Dict :=
  Albumen.mkDict (mkArray 2 4 0) (scale_to (tri_a ++ segment) 4 2)
    [0; 0; 0; 1; 1] [7; 8].

(** ** Auxiliary definitions for the proofs *)

(** The dictionary that [groupby] builds from the owner indices written by
    [encode], for boxes numbered from [i] whose first point has position
    [off] in the flat list. *)
Fixpoint groups_from (i off : nat) (polys : list polygon)
    : list (Z * list (nat * Z)) :=
  match polys with
  | [] => []
  | p :: polys' =>
      (Z.of_nat i, (λ j, ((off + j)%nat, Z.of_nat i)) <$> seq 0 (length p))
        :: groups_from (S i) (off + length p) polys'
  end.

(** The keys of a dictionary filled in the order of [l]: every element
    of [l] once, in order of first occurrence. *)
Definition owners_in_order {K} `{EqDecision K} (l : list K) : list K :=
  foldl (λ acc k, if decide (k ∈ acc) then acc else acc ++ [k]) [] l.

(** The keypoints that [box_mapping] gives to box [i], in their order. *)
Definition points_of (masks : list Z) (xy : list point) (i : Z) : polygon :=
  (filter (λ mp : Z * point, mp.1 = i) (zip masks xy)).*2.

(** The owner indices that are left with more than two points, in order of
    first occurrence. *)
Definition surviving_owners (masks : list Z) : list Z :=
  filter (λ i, (2 < length (filter (λ m, m = i) masks))%nat)
    (owners_in_order masks).

(** The number of steps that [loop_over_loader] still yields at step count
    [step]: the test [step >= n] comes after the yield, so there is
    always one. *)
Definition steps_left (n step : Z) : nat := Z.to_nat (Z.max 1 (n - step)).

(** Batches numbered from step count [step]. *)
Definition numbered {B} (step : Z) (bs : list B) : list (Z * B) :=
  imap (λ i b, (step + 1 + Z.of_nat i, b)) bs.

(** The batches of [fuel] iterations over the loader from the [k]-th
    on, one iteration after the other. *)
Definition batches_from {B} (loader : nat → list B) (k fuel : nat) : list B :=
  concat (loader <$> seq k fuel).

(** The state of the generator of random numbers after [k] calls of
    [random.random()]. *)
Fixpoint draws {R} (random : R → Qc * R) (k : nat) (r : R) : R :=
  match k with
  | O => r
  | S k' => draws random k' (random r).2
  end.

(** The dictionary that [groupby] builds from the owner indices written
    by [encode] when polygons may be empty: a polygon without points owns
    no keypoint and has no group. *)
Fixpoint groups_of (i off : nat) (polys : list polygon)
    : list (Z * list (nat * Z)) :=
  match polys with
  | [] => []
  | p :: polys' =>
      match p with
      | [] => groups_of (S i) off polys'
      | _ =>
        (Z.of_nat i, (λ j, ((off + j)%nat, Z.of_nat i)) <$> seq 0 (length p))
          :: groups_of (S i) (off + length p) polys'
      end
  end.

(** A transform keeps to its arguments when it changes no object that
    exists when it is called, the two lists of the dictionary it is
    handed apart; it may change those, and make new objects. *)
Definition keeps_to_its_arguments (T : Augment.Callable) : Prop :=
  ∀ enc heap out heap',
    T enc heap = Ok (out, heap') →
    ∀ l o, heap !! l = Some o →
      l ≠ Augment.o_keypoints enc → l ≠ Augment.o_box_mapping enc →
      heap' !! l = Some o.

(** A closed equation between values that hold rationals is settled by
    deciding it. *)
Ltac by_evaluation := apply (bool_decide_unpack _); vm_compute; exact I.

(** * Properties *)

(** ** The Python runtime *)

Section runtime.
Context {A : Type}.
Implicit Types l : list A.

Lemma py_index_nat l (n : nat) x :
  l !! n = Some x → py_index l (Z.of_nat n) = Ok x.
Proof.
  intros Hl. pose proof (lookup_lt_Some _ _ _ Hl) as Hlt.
  unfold py_index. repeat case_bool_decide; try lia.
  by rewrite Nat2Z.id, Hl.
Qed.

Lemma py_index_Ok l i x :
  py_index l i = Ok x → x ∈ l.
Proof.
  unfold py_index. repeat case_bool_decide; try done.
  all: destruct (l !! _) eqn:E; simpl; intros [= <-].
  all: by eapply list_elem_of_lookup_2.
Qed.

Lemma py_index_in_range l i :
  - Z.of_nat (length l) ≤ i < Z.of_nat (length l) →
  ∃ x, py_index l i = Ok x.
Proof.
  intros Hi. unfold py_index. repeat case_bool_decide; try lia.
  - destruct (lookup_lt_is_Some_2 l (Z.to_nat (i + Z.of_nat (length l)))) as [x ->];
      [lia|]. by exists x.
  - destruct (lookup_lt_is_Some_2 l (Z.to_nat i)) as [x ->]; [lia|].
    by exists x.
Qed.

Lemma select_length l (keeps : list bool) :
  length l = length keeps →
  length (select l keeps) = length (filter Is_true keeps).
Proof.
  unfold select. rewrite length_fmap.
  revert keeps. induction l as [|x l IH]; intros [|k keeps]; try done.
  intros [= Hlen]. cbn [zip zip_with].
  rewrite !filter_cons. 
  destruct k; simpl; auto.
Qed.

Lemma select_all l n :
  length l = n → select l (replicate n true) = l.
Proof.
  intros <-. unfold select.
  induction l as [|x l IH]; [done|]. cbn [length replicate zip zip_with].
  rewrite filter_cons. simpl. f_equal. exact IH.
Qed.

End runtime.

Lemma py_max_spec (l : list Z) (m : Z) :
  py_max l = Ok m ↔ m ∈ l ∧ ∀ x, x ∈ l → x ≤ m.
Proof.
  destruct l as [|a l]; simpl.
  { split; [done|]. by intros [?%elem_of_nil _]. }
  assert (∀ b, foldl Z.max b l ∈ b :: l ∧ ∀ x, x ∈ b :: l → x ≤ foldl Z.max b l)
    as Hfold.
  { induction l as [|c l IH]; intros b; simpl.
    - split; [by left|]. intros x ->%list_elem_of_singleton. lia.
    - destruct (IH (Z.max b c)) as [Hin Hle]. split.
      + apply elem_of_cons in Hin as [Hin|Hin]; [|by do 2 right].
        rewrite Hin. destruct (Z.max_spec b c) as [[_ ->]|[_ ->]];
          [right; left|left]; done.
      + intros x Hx.
        assert (x ≤ Z.max b c ∨ x ∈ l) as [?|?].
        { apply elem_of_cons in Hx as [->|Hx]; [left; lia|].
          apply elem_of_cons in Hx as [->|Hx]; [left; lia|by right]. }
        * etrans; [done|]. apply Hle. by left.
        * apply Hle. by right. }
  destruct (Hfold a) as [Hin Hle]. split.
  - by intros [= <-].
  - intros [Hm Hmax]. f_equal.
    apply Z.le_antisymm; [by apply Hmax|by apply Hle].
Qed.

(** ** Flattening polygons: the loop shared by the two [encode] *)

Section flatten.
Context {A : Type}.
Implicit Types (l : list (list A)) (acc : list A * list Z).

(** The loop of [encode], for boxes counted from [k]: the points of the
    polygons one after the other, and as many copies of each box index as
    the polygon has points. *)
Lemma flatten_foldl (g : list A → list A) l k acc :
  foldl (λ acc (ip : nat * list A),
           (acc.1 ++ g ip.2,
            acc.2 ++ replicate (length (g ip.2)) (Z.of_nat ip.1)))
        acc (imap (λ i p, ((k + i)%nat, p)) l) =
  (acc.1 ++ concat (g <$> l),
   acc.2 ++ concat (imap (λ i p, replicate (length (g p)) (Z.of_nat (k + i))) l)).
Proof.
  revert k acc. induction l as [|p l IH]; intros k acc.
  - simpl. rewrite !app_nil_r. by destruct acc.
  - rewrite !imap_cons. cbn [foldl fmap list_fmap concat fst snd].
    rewrite (imap_ext _ (λ i p, ((S k + i)%nat, p)) l)
      by (intros; simpl; f_equal; lia).
    rewrite IH. cbn [fst snd]. rewrite <- !app_assoc, Nat.add_0_r.
    do 4 f_equal. apply imap_ext.
    intros; simpl. do 2 f_equal. lia.
Qed.

Lemma concat_lookup_offset l i p j x :
  l !! i = Some p → p !! j = Some x →
  concat l !! (length (concat (take i l)) + j)%nat = Some x.
Proof.
  revert i. induction l as [|p' l IH]; intros [|i] Hi Hj; simplify_eq/=.
  - by apply lookup_app_l_Some.
  - rewrite length_app, <- Nat.add_assoc, lookup_app_r by lia.
    rewrite Nat.add_comm, Nat.add_sub. by apply IH.
Qed.

Lemma owners_lookup_offset l k i p j :
  l !! i = Some p → (j < length p)%nat →
  concat (imap (λ i p, replicate (length p) (Z.of_nat (k + i))) l)
    !! (length (concat (take i l)) + j)%nat = Some (Z.of_nat (k + i)).
Proof.
  revert k i. induction l as [|p' l IH]; intros k [|i] Hi Hj; simplify_eq/=.
  - apply lookup_app_l_Some. by apply lookup_replicate_2.
  - rewrite length_app, <- Nat.add_assoc.
    rewrite lookup_app_r by (rewrite length_replicate; lia).
    rewrite length_replicate, Nat.add_comm, Nat.add_sub.
    rewrite (imap_ext _ (λ i p, replicate (length p) (Z.of_nat (S k + i))) l)
      by (intros; simpl; do 2 f_equal; lia).
    rewrite IH by done. do 2 f_equal. lia.
Qed.

Lemma owners_length l k :
  length (concat (imap (λ i p, replicate (length p) (Z.of_nat (k + i))) l)) =
  length (concat l).
Proof.
  revert k. induction l as [|p l IH]; intros k; [done|].
  rewrite imap_cons. simpl. rewrite !length_app, length_replicate.
  f_equal. rewrite <- (IH (S k)). do 2 f_equal. apply imap_ext.
  intros; simpl. do 2 f_equal. lia.
Qed.
End flatten.

Lemma scale_to_length poly w h : length (scale_to poly w h) = length poly.
Proof. apply length_fmap. Qed.

Lemma scale_from_length poly w h : length (scale_from poly w h) = length poly.
Proof. apply length_fmap. Qed.

Lemma owners_length_0 {A} (l : list (list A)) :
  length (concat (imap (λ i p, replicate (length p) (Z.of_nat i)) l)) =
  length (concat l).
Proof. exact (owners_length l 0). Qed.

Lemma scaled_concat_length (l : list polygon) w h :
  length (concat ((λ p, scale_to p w h) <$> l)) = length (concat l).
Proof.
  induction l as [|p l IH]; [done|].
  cbn [fmap list_fmap concat]. rewrite !length_app, scale_to_length.
  f_equal. exact IH.
Qed.

Lemma Augment_encode_eq (s : Sample) :
  Augment.encode s =
  Augment.mkDict (np_array (image s))
    (concat ((λ p, scale_to p (im_width (image s)) (im_height (image s)))
               <$> boxes s))
    (concat (imap (λ i p, replicate (length p) (Z.of_nat i)) (boxes s))).
Proof.
  unfold Augment.encode, size, with_batch_mode, denormalize_polygon, enumerate.
  pose proof (flatten_foldl (A:=point) (λ p, p)
    ((λ p, scale_to p (im_width (image s)) (im_height (image s))) <$> boxes s)
    0 ([], [])) as H.
  unfold Augment.encode_step. simpl in H.
  rewrite list_fmap_id in H. rewrite H. f_equal.
  rewrite imap_fmap. f_equal. apply imap_ext.
  intros; simpl. by rewrite scale_to_length.
Qed.

Lemma Albumen_encode_eq (s : Sample) :
  Albumen.encode s =
  let masks := concat (imap (λ i p, replicate (length p) (Z.of_nat i)) (boxes s)) in
  m ← py_max masks;
  if bool_decide (m = Z.of_nat (length (classes s)) - 1)
  then Ok (Albumen.mkDict (np_array (image s))
             (concat ((λ p, scale_to p (im_width (image s)) (im_height (image s)))
                        <$> boxes s))
             masks (classes s))
  else Raise AssertionError.
Proof.
  unfold Albumen.encode, shape2, np_array, enumerate. cbn [arr_rows arr_cols].
  pose proof (flatten_foldl (A:=point)
    (λ p, scale_to p (im_width (image s)) (im_height (image s)))
    (boxes s) 0 ([], [])) as H.
  unfold Albumen.encode_step. simpl in H. rewrite H.
  rewrite (imap_ext _ (λ i p, replicate (length p) (Z.of_nat i)) (boxes s))
    by (intros; simpl; by rewrite scale_to_length).
  done.
Qed.

(** ** [decode] of megane/augment.py *)

Section augment_decode.
Import Augment.

Lemma py_index_replicate {A} (x y : A) n i :
  py_index (replicate n x) i = Ok y → y = x.
Proof. intros H%py_index_Ok. by apply elem_of_replicate in H as [-> _]. Qed.

(** All the references made by [[[]] * n] name the same list object, so
    every [append] lands in it. *)
Lemma group_loop_shared n (r0 : nat) acc items σ :
  group_loop (replicate n r0) {[ r0 := acc ]} items = Ok σ →
  σ = {[ r0 := acc ++ items.*2 ]}.
Proof.
  revert acc. induction items as [|[mask xy] items IH]; intros acc; simpl.
  - intros [= <-]. by rewrite app_nil_r.
  - unfold append_at.
    destruct (py_index (replicate n r0) mask) as [e|r] eqn:Hr; [done|].
    apply py_index_replicate in Hr as ->. simpl.
    rewrite alter_singleton_eq. intros ->%IH. by rewrite <- app_assoc.
Qed.

Lemma group_loop_in_range n (r0 : nat) acc items :
  Forall (λ m, - Z.of_nat n ≤ m < Z.of_nat n) items.*1 →
  group_loop (replicate n r0) {[ r0 := acc ]} items =
    Ok {[ r0 := acc ++ items.*2 ]}.
Proof.
  revert acc. induction items as [|[mask xy] items IH]; intros acc; simpl.
  - intros _. by rewrite app_nil_r.
  - intros Hall. apply Forall_cons_1 in Hall as [Hm Hitems].
    unfold append_at.
    destruct (py_index_in_range (replicate n r0) mask) as [r Hr].
    { by rewrite length_replicate. }
    rewrite Hr. apply py_index_replicate in Hr as ->. simpl.
    rewrite alter_singleton_eq, IH by done. by rewrite <- app_assoc.
Qed.

(** What [decode] returns, when it returns: every box is the one shared
    list, which holds all the keypoints that were zipped with a mask. *)
Lemma augment_decode_shared (s : Sample) (outputs : Dict) (s' : Sample) :
  decode s outputs = Ok s' →
  let n := length (boxes s) in
  let all := (zip (d_box_mapping outputs) (d_keypoints outputs)).*2 in
  let keeps := replicate n (bool_decide (2 < length all)%nat) in
  s' = mkSample (fromarray (d_image outputs))
         (select (replicate n
            (normalize_polygon all (im_width (image s)) (im_height (image s))))
            keeps)
         (select (classes s) keeps)
         ((λ sc, select sc keeps) <$> scores s).
Proof.
  unfold decode, size, repeat_empty_list, new_list, with_batch_mode.
  rewrite insert_empty.
  destruct (group_loop _ _ _) as [e|σ] eqn:Hσ; [done|].
  apply group_loop_shared in Hσ as ->. simpl. intros [= <-].
  rewrite !fmap_replicate. unfold deref. by rewrite lookup_singleton_eq.
Qed.

Lemma augment_decode_returns (s : Sample) (outputs : Dict) :
  Forall (λ m, - Z.of_nat (length (boxes s)) ≤ m < Z.of_nat (length (boxes s)))
    (zip (d_box_mapping outputs) (d_keypoints outputs)).*1 →
  ∃ s', decode s outputs = Ok s'.
Proof.
  intros Hin. unfold decode, size, repeat_empty_list, new_list.
  rewrite insert_empty, group_loop_in_range by done. simpl. eauto.
Qed.
End augment_decode.

(** ** [decode] of megane/augment/albumen.py *)

Section albumen_decode.
Import Albumen.

Lemma decode_step_lengths xy cls w h acc g acc' :
  decode_step xy cls w h acc g = Ok acc' →
  length acc.1 = length acc.2 → length acc'.1 = length acc'.2.
Proof.
  unfold decode_step. destruct g as [i idx].
  destruct (traverse _ idx) as [e|pts]; [done|]. simpl.
  case_bool_decide; [|by intros [= <-]].
  destruct (py_index cls i) as [e|c]; [done|]. simpl.
  intros [= <-] Hlen. simpl. rewrite !length_app. simpl. lia.
Qed.

Lemma decode_loop_lengths xy cls w h groups acc acc' :
  decode_loop xy cls w h acc groups = Ok acc' →
  length acc.1 = length acc.2 → length acc'.1 = length acc'.2.
Proof.
  revert acc. induction groups as [|g groups IH]; intros acc; simpl.
  - by intros [= <-].
  - destruct (decode_step xy cls w h acc g) as [e|acc1] eqn:Hstep; [done|].
    simpl. intros Hloop Hlen. eapply IH; [done|].
    by eapply decode_step_lengths.
Qed.

Lemma decode_Ok_inv (outputs : Dict) (s' : Sample) :
  decode outputs = Ok s' →
  image s' = fromarray (d_image outputs) ∧
  scores s' = None ∧
  length (boxes s') = length (classes s') ∧
  decode_loop (d_keypoints outputs) (d_classes outputs)
    (arr_cols (d_image outputs)) (arr_rows (d_image outputs)) ([], [])
    (groupby (λ i : nat * Z, i.2) (enumerate (d_box_mapping outputs)))
  = Ok (boxes s', classes s').
Proof.
  unfold decode, size, fromarray. cbn [im_width im_height].
  destruct (decode_loop _ _ _ _ _ _) as [e|[bs cs]] eqn:Hloop; [done|]. simpl.
  apply decode_loop_lengths in Hloop; [|done]. simpl in Hloop.
  rewrite bool_decide_eq_true_2 by done. by intros [= <-].
Qed.

(** The assertion of [decode] never fails: the loop keeps its two lists
    equally long. *)
Lemma decode_loop_Ok (outputs : Dict) bs cs :
  decode_loop (d_keypoints outputs) (d_classes outputs)
    (arr_cols (d_image outputs)) (arr_rows (d_image outputs)) ([], [])
    (groupby (λ i : nat * Z, i.2) (enumerate (d_box_mapping outputs)))
  = Ok (bs, cs) →
  decode outputs = Ok (mkSample (fromarray (d_image outputs)) bs cs None).
Proof.
  intros Hloop. unfold decode, size, fromarray. cbn [im_width im_height].
  rewrite Hloop. simpl.
  apply decode_loop_lengths in Hloop; [|done]. simpl in Hloop.
  by rewrite bool_decide_eq_true_2.
Qed.

End albumen_decode.

(** ** [toolz.groupby] on the owner indices written by [encode] *)

Section groupby.
Context {K V : Type} `{EqDecision K}.
Implicit Types (d : list (K * list V)).

Lemma dict_append_fresh d k v :
  k ∉ d.*1 → dict_append k v d = d ++ [(k, [v])].
Proof.
  induction d as [|[k' vs] d IH]; simpl; [done|].
  intros Hk. apply not_elem_of_cons in Hk as [Hne Hk].
  rewrite decide_False by done. by rewrite IH.
Qed.

Lemma dict_append_last d k vs v :
  k ∉ d.*1 → dict_append k v (d ++ [(k, vs)]) = d ++ [(k, vs ++ [v])].
Proof.
  induction d as [|[k' vs'] d IH]; simpl.
  - intros _. by rewrite decide_True.
  - intros Hk. apply not_elem_of_cons in Hk as [Hne Hk].
    rewrite decide_False by done. by rewrite IH.
Qed.

Lemma foldl_same_key (key : V → K) d k vs items :
  k ∉ d.*1 → Forall (λ item, key item = k) items →
  foldl (λ d item, dict_append (key item) item d) (d ++ [(k, vs)]) items =
  d ++ [(k, vs ++ items)].
Proof.
  intros Hk. revert vs. induction items as [|item items IH]; intros vs Hall.
  - by rewrite app_nil_r.
  - apply Forall_cons_1 in Hall as [Hkey Hall]. simpl.
    rewrite Hkey, dict_append_last, IH by done. by rewrite <- app_assoc.
Qed.
End groupby.

Lemma imap_replicate {A B} (f : nat → A → B) n x :
  imap f (replicate n x) = (λ j, f j x) <$> seq 0 n.
Proof.
  revert f. induction n as [|n IH]; intros f; [done|].
  simpl. f_equal. rewrite IH, <- fmap_S_seq, <- list_fmap_compose. done.
Qed.


Lemma groupby_from polys i off (G : list (Z * list (nat * Z))) :
  Forall (λ p : polygon, p ≠ []) polys →
  (∀ k, k ∈ G.*1 → k < Z.of_nat i) →
  foldl (λ d item, dict_append item.2 item d) G
    (imap (λ j m, ((off + j)%nat, m))
       (concat (imap (λ i' p, replicate (length p) (Z.of_nat (i + i'))) polys)))
  = G ++ groups_from i off polys.
Proof.
  revert i off G.
  induction polys as [|p polys IH]; intros i off G Hne HG.
  - simpl. by rewrite app_nil_r.
  - apply Forall_cons_1 in Hne as [Hp Hne].
    rewrite imap_cons. cbn [concat groups_from].
    rewrite imap_app, foldl_app, length_replicate, imap_replicate.
    rewrite Nat.add_0_r.
    assert (Z.of_nat i ∉ G.*1) as Hfresh.
    { intros Hin%HG. lia. }
    destruct p as [|pt p]; [done|]. cbn [length seq fmap list_fmap foldl snd].
    rewrite dict_append_fresh by done.
    rewrite (foldl_same_key (λ item : nat * Z, item.2)); [|done|].
    2:{ apply Forall_fmap, Forall_forall. done. }
    rewrite (imap_ext _ (λ j m, ((off + S (length p) + j)%nat, m)))
      by (intros; simpl; f_equal; lia).
    rewrite (imap_ext (_ ∘ S) (λ i' p, replicate (length p) (Z.of_nat (S i + i'))))
      by (intros; simpl; do 2 f_equal; lia).
    rewrite IH; [by rewrite <- app_assoc|done|].
    intros k. rewrite fmap_app. intros [Hk%HG|Hk]%elem_of_app; [lia|].
    apply list_elem_of_singleton in Hk. simpl in Hk. lia.
Qed.

Lemma groupby_encoded (polys : list polygon) :
  Forall (λ p : polygon, p ≠ []) polys →
  groupby (λ i : nat * Z, i.2)
    (enumerate (concat (imap (λ i p, replicate (length p) (Z.of_nat i)) polys)))
  = groups_from 0 0 polys.
Proof.
  intros Hne. unfold groupby, enumerate.
  apply (groupby_from polys 0 0 []); [done|]. by intros k ?%elem_of_nil.
Qed.

(** ** Scaling there and back *)

Lemma Qc_of_pos_nonzero (n : positive) : Qc_of_Z (Z.pos n) ≠ Q2Qc 0.
Proof. rewrite <- Z2Qc_inj_0. by intros ?%Z2Qc_inj. Qed.

Lemma scale_from_to_point w h (p : point) :
  scale_from_point w h (scale_to_point w h p) = p.
Proof.
  destruct p as [x y]. unfold scale_from_point, scale_to_point. simpl.
  by rewrite !Qcdiv_mult_l by apply Qc_of_pos_nonzero.
Qed.

Lemma scale_from_to (poly : polygon) w h :
  scale_from (scale_to poly w h) w h = poly.
Proof.
  unfold scale_from, scale_to. rewrite <- list_fmap_compose.
  rewrite <- (list_fmap_id poly) at 2. apply list_fmap_ext.
  intros _ p _. apply scale_from_to_point.
Qed.

Lemma fromarray_np_array (im : PILImage) : fromarray (np_array im) = im.
Proof. by destruct im. Qed.

(** ** The round trip through [encode] and [decode] of albumen.py *)

Section albumen_roundtrip.
Import Albumen.

Lemma traverse_group {A} (xy pre p rest : list A) (i : Z) :
  xy = pre ++ p ++ rest →
  traverse (λ jm : nat * Z, py_index xy (Z.of_nat jm.1))
    ((λ j, ((length pre + j)%nat, i)) <$> seq 0 (length p)) = Ok p.
Proof.
  revert pre. induction p as [|x p IH]; intros pre ->; [done|].
  cbn [length seq fmap list_fmap traverse fst].
  rewrite (py_index_nat _ _ x).
  2:{ rewrite Nat.add_0_r, lookup_app_r, Nat.sub_diag by done. done. }
  simpl. rewrite <- fmap_S_seq, <- list_fmap_compose.
  rewrite (list_fmap_ext _ (λ j, ((length (pre ++ [x]) + j)%nat, i)) (seq 0 (length p))).
  2:{ intros _ j _. simpl. rewrite length_app. simpl. f_equal. lia. }
  rewrite IH; [done|]. by rewrite <- app_assoc.
Qed.

Lemma decode_loop_groups w h (polys : list polygon) :
  ∀ (pre : list point) (cpre cs : list Z) (acc : list polygon * list Z),
  length cs = length polys →
  Forall (λ p : polygon, (2 < length p)%nat) polys →
  decode_loop (pre ++ concat ((λ p, scale_to p w h) <$> polys)) (cpre ++ cs)
    w h acc (groups_from (length cpre) (length pre) polys)
  = Ok (acc.1 ++ polys, acc.2 ++ cs).
Proof.
  induction polys as [|p polys IH]; intros pre cpre cs acc Hlen Hbig.
  - destruct cs; [|done]. simpl. rewrite !app_nil_r. by destruct acc.
  - destruct cs as [|c cs]; [done|]. injection Hlen as Hlen.
    apply Forall_cons_1 in Hbig as [Hp Hbig].
    cbn [groups_from decode_loop fmap list_fmap concat].
    unfold decode_step.
    rewrite <- (scale_to_length p w h) at 1.
    rewrite (traverse_group _ pre (scale_to p w h)
               (concat ((λ p, scale_to p w h) <$> polys))) by done.
    simpl. rewrite scale_from_to.
    rewrite bool_decide_eq_true_2 by done.
    rewrite (py_index_nat _ _ c) by (by rewrite lookup_app_r, Nat.sub_diag).
    simpl.
    replace (S (length cpre)) with (length (cpre ++ [c]))
      by (rewrite length_app; simpl; lia).
    replace (length pre + length p)%nat with (length (pre ++ scale_to p w h))
      by (by rewrite length_app, scale_to_length).
    rewrite (app_assoc pre), (cons_middle c cpre cs), (app_assoc cpre).
    rewrite IH by done. simpl. by rewrite <- !app_assoc.
Qed.

(** The largest owner index written by [encode], when no polygon is
    empty. *)
Lemma owners_max (polys : list polygon) :
  polys ≠ [] → Forall (λ p : polygon, p ≠ []) polys →
  py_max (concat (imap (λ i p, replicate (length p) (Z.of_nat i)) polys))
  = Ok (Z.of_nat (length polys) - 1).
Proof.
  intros Hpolys Hne. apply py_max_spec. split.
  - destruct (lookup_lt_is_Some_2 polys (length polys - 1)) as [p Hp].
    { destruct polys; [done|]. simpl. lia. }
    assert (0 < length p)%nat as Hlen.
    { eapply Forall_lookup_1 in Hne; [|done]. destruct p; [done|]. simpl. lia. }
    pose proof (owners_lookup_offset polys 0 _ p 0 Hp Hlen) as Hk.
    apply list_elem_of_lookup_2 in Hk.
    replace (Z.of_nat (length polys) - 1) with (Z.of_nat (0 + (length polys - 1))).
    + done.
    + destruct polys; [done|]. simpl. lia.
  - intros x Hx. apply list_elem_of_In, in_concat in Hx as (l & Hl & Hx).
    apply list_elem_of_In in Hl, Hx.
    apply list_elem_of_lookup in Hl as [i Hl].
    rewrite list_lookup_imap in Hl.
    destruct (polys !! i) as [p|] eqn:Hp; [|done]. simpl in Hl.
    injection Hl as <-. apply elem_of_replicate in Hx as [-> _].
    apply lookup_lt_Some in Hp. lia.
Qed.

(** [encode], then [idendity], then [decode]: the boxes and classes come
    back, the scores do not. *)
Lemma albumen_roundtrip (s : Sample) :
  boxes s ≠ [] →
  Forall (λ p : polygon, (2 < length p)%nat) (boxes s) →
  length (classes s) = length (boxes s) →
  (e ← encode s; decode (idendity e)) =
    Ok (mkSample (image s) (boxes s) (classes s) None).
Proof.
  intros Hboxes Hbig Hlen.
  assert (Forall (λ p : polygon, p ≠ []) (boxes s)) as Hne.
  { apply Forall_forall. intros p Hp.
    apply (proj1 (Forall_forall _ _) Hbig) in Hp. destruct p; [|done].
    simpl in Hp. lia. }
  rewrite Albumen_encode_eq. cbv zeta.
  rewrite owners_max by done. simpl.
  rewrite bool_decide_eq_true_2 by lia. simpl. unfold idendity.
  erewrite decode_loop_Ok; [simpl; by rewrite fromarray_np_array|]. simpl.
  rewrite groupby_encoded by done.
  apply (decode_loop_groups (im_width (image s)) (im_height (image s))
    (boxes s) [] [] (classes s) ([], []) Hlen Hbig).
Qed.
End albumen_roundtrip.

(** ** The round trip through [encode] and [decode] of augment.py *)

Section augment_roundtrip.
Import Augment.

Lemma owners_in_range (polys : list polygon) (m : Z) :
  m ∈ concat (imap (λ i p, replicate (length p) (Z.of_nat i)) polys) →
  0 ≤ m < Z.of_nat (length polys).
Proof.
  intros Hx. apply list_elem_of_In, in_concat in Hx as (l & Hl & Hx).
  apply list_elem_of_In in Hl, Hx.
  apply list_elem_of_lookup in Hl as [i Hl].
  rewrite list_lookup_imap in Hl.
  destruct (polys !! i) as [p|] eqn:Hp; [|done]. simpl in Hl.
  injection Hl as <-. apply elem_of_replicate in Hx as [-> _].
  apply lookup_lt_Some in Hp. lia.
Qed.

Lemma concat_length_big (polys : list polygon) :
  polys ≠ [] → Forall (λ p : polygon, (2 < length p)%nat) polys →
  (2 < length (concat polys))%nat.
Proof.
  destruct polys as [|p polys]; [done|]. intros _ [Hp _]%Forall_cons_1.
  simpl. rewrite length_app. lia.
Qed.

Lemma augment_roundtrip (s : Sample) :
  sample_wf s →
  Forall (λ p : polygon, (2 < length p)%nat) (boxes s) →
  ∃ s', decode s (encode s) = Ok s' ∧
    image s' = image s ∧ classes s' = classes s ∧ scores s' = scores s ∧
    length (boxes s') = length (boxes s).
Proof.
  intros [Hcls Hsc] Hbig.
  destruct (augment_decode_returns s (encode s)) as [s' Hs'].
  { rewrite Augment_encode_eq. simpl. apply Forall_forall. intros m Hm.
    apply list_elem_of_fmap in Hm as ([m' xy] & -> & Hm).
    apply elem_of_zip_l in Hm. simpl. apply owners_in_range in Hm. lia. }
  exists s'. split; [done|].
  apply augment_decode_shared in Hs'. cbv zeta in Hs'. subst s'.
  rewrite Augment_encode_eq. cbn [d_image d_keypoints d_box_mapping
    image classes scores boxes].
  rewrite snd_zip.
  2:{ by rewrite owners_length_0, scaled_concat_length. }
  rewrite fromarray_np_array.
  destruct (decide (boxes s = [])) as [Hnil|Hnil].
  - rewrite Hnil in *. simpl in *.
    destruct (classes s); [|done].
    destruct (scores s) as [sc|]; simpl; [|done].
    specialize (Hsc sc eq_refl). by destruct sc.
  - rewrite bool_decide_eq_true_2.
    2:{ apply concat_length_big.
        - by destruct (boxes s).
        - apply Forall_fmap. eapply Forall_impl; [exact Hbig|].
          intros p Hp. simpl. by rewrite scale_to_length. }
    rewrite !select_all by (by rewrite ?length_replicate).
    repeat split; [|by rewrite length_replicate].
    destruct (scores s) as [sc|]; simpl; [|done].
    by rewrite select_all by (by apply Hsc).
Qed.
End augment_roundtrip.

(** ** [Augmentation.__call__] of augment.py on the heap of objects *)

Section augment_call.
Import Augment.
Implicit Types (heap : gmap nat object) (o : object).

Lemma new_object_fresh o heap :
  heap !! (new_object o heap).1 = None.
Proof. apply not_elem_of_dom, is_fresh. Qed.

Lemma new_object_lookup o heap :
  (new_object o heap).2 !! (new_object o heap).1 = Some o.
Proof. apply lookup_insert_eq. Qed.

Lemma new_object_subseteq o heap : heap ⊆ (new_object o heap).2.
Proof. apply insert_subseteq. apply (new_object_fresh o). Qed.

Lemma new_objects_spec os heap rs heap' :
  new_objects os heap = (rs, heap') →
  heap ⊆ heap' ∧
  Forall (λ r, heap !! r = None) rs ∧
  Forall2 (λ r o, heap' !! r = Some o) rs os.
Proof.
  revert heap rs heap'. induction os as [|o os IH]; intros heap rs heap'.
  - intros [= <- <-]. split_and!; [done|constructor..].
  - cbn [new_objects].
    pose proof (new_object_fresh o heap) as Hfresh.
    pose proof (new_object_lookup o heap) as Hlook.
    pose proof (new_object_subseteq o heap) as Hsub.
    destruct (new_object o heap) as [r heap1]. simpl in *.
    destruct (new_objects os heap1) as [rs' heap2] eqn:Hrest.
    intros [= <- <-].
    apply IH in Hrest as (Hsub' & Hnew & Hall).
    split_and!.
    + by etrans.
    + constructor; [done|]. eapply Forall_impl; [exact Hnew|].
      intros r' Hr'. simpl in Hr'.
      destruct (heap !! r') as [o'|] eqn:Ho'; [|done].
      eapply lookup_weaken in Ho'; [|exact Hsub]. congruence.
    + constructor; [|done]. by eapply lookup_weaken.
Qed.

(** Reading goes on giving the same in a heap that has grown. *)
Lemma get_points_weaken heap heap' r pts :
  heap ⊆ heap' → get_points heap r = Ok pts → get_points heap' r = Ok pts.
Proof.
  intros Hsub. unfold get_points.
  destruct (heap !! r) as [o|] eqn:Hr; [|done].
  by rewrite (lookup_weaken _ _ _ _ Hr Hsub).
Qed.

Lemma get_ints_weaken heap heap' r l :
  heap ⊆ heap' → get_ints heap r = Ok l → get_ints heap' r = Ok l.
Proof.
  intros Hsub. unfold get_ints.
  destruct (heap !! r) as [o|] eqn:Hr; [|done].
  by rewrite (lookup_weaken _ _ _ _ Hr Hsub).
Qed.

Lemma get_floats_weaken heap heap' r l :
  heap ⊆ heap' → get_floats heap r = Ok l → get_floats heap' r = Ok l.
Proof.
  intros Hsub. unfold get_floats.
  destruct (heap !! r) as [o|] eqn:Hr; [|done].
  by rewrite (lookup_weaken _ _ _ _ Hr Hsub).
Qed.

Lemma traverse_get_points_weaken heap heap' rs bs :
  heap ⊆ heap' →
  traverse (get_points heap) rs = Ok bs →
  traverse (get_points heap') rs = Ok bs.
Proof.
  intros Hsub. revert bs. induction rs as [|r rs IH]; intros bs; [done|].
  simpl. destruct (get_points heap r) as [e|pts] eqn:Hr; [done|].
  rewrite (get_points_weaken _ _ _ _ Hsub Hr). simpl.
  destruct (traverse (get_points heap) rs) as [e|bs'] eqn:Hrs; [done|].
  by rewrite (IH bs').
Qed.

Lemma get_polygons_weaken heap heap' r bs :
  heap ⊆ heap' → get_polygons heap r = Ok bs → get_polygons heap' r = Ok bs.
Proof.
  intros Hsub. unfold get_polygons.
  destruct (heap !! r) as [o|] eqn:Hr; [|done].
  rewrite (lookup_weaken _ _ _ _ Hr Hsub).
  destruct o; try done. by apply traverse_get_points_weaken.
Qed.

Lemma get_scores_weaken heap heap' sc l :
  heap ⊆ heap' → get_scores heap sc = Ok l → get_scores heap' sc = Ok l.
Proof.
  intros Hsub. destruct sc as [r|]; [|done]. simpl.
  destruct (get_floats heap r) as [e|fs] eqn:Hl; [done|].
  by rewrite (get_floats_weaken _ _ _ _ Hsub Hl).
Qed.

Lemma get_sample_weaken heap heap' r s :
  heap ⊆ heap' → get_sample heap r = Ok s → get_sample heap' r = Ok s.
Proof.
  intros Hsub. unfold get_sample.
  destruct (heap !! r) as [o|] eqn:Hr; [|done].
  rewrite (lookup_weaken _ _ _ _ Hr Hsub).
  destruct o as [img b c sc| | | |]; try done.
  destruct (get_polygons heap b) as [e|bs] eqn:Hb; [done|].
  rewrite (get_polygons_weaken _ _ _ _ Hsub Hb). cbn [mbind result_bind].
  destruct (get_ints heap c) as [e|cs] eqn:Hc; [done|].
  rewrite (get_ints_weaken _ _ _ _ Hsub Hc). cbn [mbind result_bind].
  destruct (get_scores heap sc) as [e|scs] eqn:Hl; [done|].
  by rewrite (get_scores_weaken _ _ _ _ Hsub Hl).
Qed.

Lemma get_sample_new heap r b c sc (dec : Sample) :
  heap !! r = Some (SampleObj (image dec) b c sc) →
  get_polygons heap b = Ok (boxes dec) →
  get_ints heap c = Ok (classes dec) →
  get_scores heap sc = Ok (scores dec) →
  get_sample heap r = Ok dec.
Proof.
  intros Hr Hb Hc Hsc. unfold get_sample. rewrite Hr, Hb.
  cbn [mbind result_bind]. rewrite Hc. cbn [mbind result_bind].
  rewrite Hsc. cbn [mbind result_bind]. by destruct dec.
Qed.

(** Reading back the polygons that were just made. *)
Lemma traverse_get_points_new heap rs (bs : list polygon) :
  Forall2 (λ r o, heap !! r = Some o) rs (PointsObj <$> bs) →
  traverse (get_points heap) rs = Ok bs.
Proof.
  revert rs. induction bs as [|b bs IH]; intros rs Hall.
  - by apply Forall2_nil_inv_r in Hall as ->.
  - apply Forall2_cons_inv_r in Hall as (r & rs' & Hr & Hall & ->).
    cbn [traverse]. assert (get_points heap r = Ok b) as ->
      by (unfold get_points; by rewrite Hr).
    cbn [mbind result_bind]. by rewrite (IH rs').
Qed.

(** The heap after [encode]: the old objects, and two new lists. *)
Lemma encode_obj_inv sample heap enc heap1 :
  encode_obj sample heap = Ok (enc, heap1) →
  ∃ s, get_sample heap sample = Ok s ∧
    heap ⊆ heap1 ∧
    heap !! o_keypoints enc = None ∧ heap !! o_box_mapping enc = None ∧
    o_image enc = d_image (encode s) ∧
    get_points heap1 (o_keypoints enc) = Ok (d_keypoints (encode s)) ∧
    get_ints heap1 (o_box_mapping enc) = Ok (d_box_mapping (encode s)).
Proof.
  unfold encode_obj.
  destruct (get_sample heap sample) as [e|s] eqn:Hs; [done|]. cbn [mbind result_bind].
  set (o1 := IntsObj _). set (o2 := PointsObj _).
  pose proof (new_object_fresh o1 heap) as Hf1.
  pose proof (new_object_lookup o1 heap) as Hl1.
  pose proof (new_object_subseteq o1 heap) as Hs1.
  destruct (new_object o1 heap) as [masks heap'] eqn:H1. cbn [fst snd] in *.
  pose proof (new_object_fresh o2 heap') as Hf2.
  pose proof (new_object_lookup o2 heap') as Hl2.
  pose proof (new_object_subseteq o2 heap') as Hs2.
  destruct (new_object o2 heap') as [kps heap''] eqn:H2. cbn [fst snd] in *.
  intros [= <- <-]. exists s. simpl. split_and!; try done.
  - by etrans.
  - destruct (heap !! kps) as [o|] eqn:Hk; [|done].
    eapply lookup_weaken in Hk; [|exact Hs1]. congruence.
  - unfold get_points. by rewrite Hl2.
  - unfold get_ints. by rewrite (lookup_weaken _ _ _ _ Hl1 Hs2).
Qed.

(** The heap after [decode]: the old objects, and a new Sample with new
    lists, which hold what [decode] computes. *)
Lemma decode_obj_inv sample outputs heap r' heap' :
  decode_obj sample outputs heap = Ok (r', heap') →
  ∃ s keypoints box_mapping dec img boxes classes scores polygons,
    get_sample heap sample = Ok s ∧
    get_points heap (o_keypoints outputs) = Ok keypoints ∧
    get_ints heap (o_box_mapping outputs) = Ok box_mapping ∧
    decode s (mkDict (o_image outputs) keypoints box_mapping) = Ok dec ∧
    heap ⊆ heap' ∧
    heap !! r' = None ∧
    heap' !! r' = Some (SampleObj img boxes classes scores) ∧
    heap' !! boxes = Some (PolygonsObj polygons) ∧
    heap !! boxes = None ∧ heap !! classes = None ∧
    (∀ l, scores = Some l → heap !! l = None) ∧
    Forall (λ l, heap !! l = None) polygons ∧
    get_sample heap' r' = Ok dec.
Proof.
  unfold decode_obj.
  destruct (get_sample heap sample) as [e|s] eqn:Hs; [done|]. cbn [mbind result_bind].
  destruct (get_points heap _) as [e|kps] eqn:Hk; [done|]. cbn [mbind result_bind].
  destruct (get_ints heap _) as [e|bm] eqn:Hb; [done|]. cbn [mbind result_bind].
  destruct (decode s _) as [e|dec] eqn:Hd; [done|]. cbn [mbind result_bind].
  destruct (new_objects (PointsObj <$> boxes dec) heap) as [polys heap1] eqn:H1.
  apply new_objects_spec in H1 as (Hs1 & Hf1 & Hl1).
  set (o2 := PolygonsObj polys).
  pose proof (new_object_fresh o2 heap1) as Hf2.
  pose proof (new_object_lookup o2 heap1) as Hl2.
  pose proof (new_object_subseteq o2 heap1) as Hs2.
  destruct (new_object o2 heap1) as [bs heap2]. cbn [fst snd] in *.
  set (o3 := IntsObj (classes dec)).
  pose proof (new_object_fresh o3 heap2) as Hf3.
  pose proof (new_object_lookup o3 heap2) as Hl3.
  pose proof (new_object_subseteq o3 heap2) as Hs3.
  destruct (new_object o3 heap2) as [cs heap3]. cbn [fst snd] in *.
  assert (∃ scs heap4,
    match scores dec with
    | Some items =>
        let '(r, heap) := new_object (FloatsObj items) heap3 in (Some r, heap)
    | None => (None, heap3)
    end = (scs, heap4) ∧ heap3 ⊆ heap4 ∧
    (∀ l, scs = Some l → heap3 !! l = None) ∧
    get_scores heap4 scs = Ok (scores dec)) as (scs & heap4 & -> & Hs4 & Hf4 & Hl4).
  { destruct (scores dec) as [items|].
    - pose proof (new_object_fresh (FloatsObj items) heap3) as Hf.
      pose proof (new_object_lookup (FloatsObj items) heap3) as Hl.
      pose proof (new_object_subseteq (FloatsObj items) heap3) as Hsub.
      destruct (new_object (FloatsObj items) heap3) as [r heap4].
      cbn [fst snd] in *.
      exists (Some r), heap4. split_and!; [done..| |].
      + by intros l [= <-].
      + unfold get_scores, get_floats. by rewrite Hl.
    - exists None, heap3. split_and!; done. }
  set (o5 := SampleObj (image dec) bs cs scs).
  pose proof (new_object_fresh o5 heap4) as Hf5.
  pose proof (new_object_lookup o5 heap4) as Hl5.
  pose proof (new_object_subseteq o5 heap4) as Hs5.
  destruct (new_object o5 heap4) as [r heap5]. cbn [fst snd] in *.
  intros [= <- <-].
  assert (heap ⊆ heap2) as H02 by (by etrans).
  assert (heap ⊆ heap3) as H03 by (by etrans).
  assert (heap ⊆ heap4) as H04 by (by etrans).
  assert (heap ⊆ heap5) as H05 by (by etrans).
  assert (∀ h (l : nat), heap ⊆ h → h !! l = None → heap !! l = None) as Hnone.
  { intros h l Hsub Hl. destruct (heap !! l) as [o|] eqn:Ho; [|done].
    eapply lookup_weaken in Ho; [|exact Hsub]. congruence. }
  exists s, kps, bm, dec, (image dec), bs, cs, scs, polys.
  split_and!; try done.
  - by apply (Hnone heap4).
  - apply (lookup_weaken heap2); [done|]. by repeat (etrans; [done|]).
  - by apply (Hnone heap1).
  - by apply (Hnone heap2).
  - intros l Hl. apply (Hnone heap3); [done|]. by apply Hf4.
  - apply (get_sample_new heap5 r bs cs scs dec); [done| | |].
    + unfold get_polygons.
      rewrite (lookup_weaken heap2 heap5 bs o2 Hl2)
        by (by repeat (etrans; [done|])).
      apply traverse_get_points_new.
      eapply Forall2_impl; [exact Hl1|]. intros l o Hl. simpl in Hl.
      apply (lookup_weaken heap1); [done|]. by repeat (etrans; [done|]).
    + unfold get_ints.
      by rewrite (lookup_weaken heap3 heap5 cs o3 Hl3) by (by etrans).
    + by apply (get_scores_weaken heap4).
Qed.

(** A pass of [Augmentation.__call__] with a transform that keeps to its
    arguments: the objects that were there are as they were, and the
    result is a new Sample with new lists, which holds what [decode]
    computes from the Sample and from the lists that the transform has
    left. *)
Lemma call_inv (T : Callable) (sample : nat) heap r' heap' :
  keeps_to_its_arguments T →
  Augmentation_call T sample heap = Ok (r', heap') →
  ∃ s enc heap1 out heap2 keypoints box_mapping dec img boxes classes scores
      polygons,
    get_sample heap sample = Ok s ∧
    encode_obj sample heap = Ok (enc, heap1) ∧
    T enc heap1 = Ok (out, heap2) ∧
    get_points heap2 (o_keypoints out) = Ok keypoints ∧
    get_ints heap2 (o_box_mapping out) = Ok box_mapping ∧
    decode s (mkDict (o_image out) keypoints box_mapping) = Ok dec ∧
    heap ⊆ heap' ∧
    heap !! r' = None ∧
    heap' !! r' = Some (SampleObj img boxes classes scores) ∧
    heap' !! boxes = Some (PolygonsObj polygons) ∧
    heap !! boxes = None ∧ heap !! classes = None ∧
    (∀ l, scores = Some l → heap !! l = None) ∧
    Forall (λ l, heap !! l = None) polygons ∧
    get_sample heap' r' = Ok dec.
Proof.
  intros HT. unfold Augmentation_call.
  destruct (encode_obj sample heap) as [e|[enc heap1]] eqn:Henc; [done|].
  cbn [mbind result_bind].
  destruct (T enc heap1) as [e|[out heap2]] eqn:Hout; [done|].
  cbn [mbind result_bind]. intros Hdec.
  pose proof (encode_obj_inv _ _ _ _ Henc)
    as (s & Hs & Hsub1 & Hkp & Hbm & _ & _ & _).
  assert (heap ⊆ heap2) as Hsub2.
  { apply map_subseteq_spec. intros l o Hl.
    apply (HT enc heap1 out heap2 Hout).
    - by apply (lookup_weaken heap).
    - intros ->. congruence.
    - intros ->. congruence. }
  apply decode_obj_inv in Hdec
    as (s2 & kps & bm & dec & img & bs & cs & scs & polys & Hs2 & Hkps & Hbms
        & Hd & Hsub3 & Hr' & Hlr' & Hlbs & Hbs & Hcs & Hscs & Hpolys & Hread).
  rewrite (get_sample_weaken _ _ _ _ Hsub2 Hs) in Hs2. injection Hs2 as <-.
  assert (∀ l : nat, heap2 !! l = None → heap !! l = None) as Hnone.
  { intros l Hl. destruct (heap !! l) as [o|] eqn:Ho; [|done].
    eapply lookup_weaken in Ho; [|exact Hsub2]. congruence. }
  exists s, enc, heap1, out, heap2, kps, bm, dec, img, bs, cs, scs, polys.
  split_and!; try done.
  - by etrans.
  - by apply Hnone.
  - by apply Hnone.
  - by apply Hnone.
  - intros l Hl. by apply Hnone, Hscs.
  - eapply Forall_impl; [exact Hpolys|]. intros l Hl. by apply Hnone.
Qed.

End augment_call.

(** ** [Augment.__call__] of megane2 *)

Section megane2_call.
Import Megane2.

Lemma chunks4_length n rows : length (chunks4 n rows) = n.
Proof. revert rows. induction n as [|n IH]; intros rows; simpl; auto. Qed.

Lemma chunks4_concat n rows :
  length rows = (4 * n)%nat → concat (chunks4 n rows) = rows.
Proof.
  revert rows. induction n as [|n IH]; intros rows Hlen.
  - by destruct rows.
  - cbn [chunks4 concat]. rewrite IH by (rewrite length_drop; lia).
    apply take_drop.
Qed.

Lemma chunks4_quads n rows :
  length rows = (4 * n)%nat →
  Forall (λ p : polygon, length p = 4%nat) (chunks4 n rows).
Proof.
  revert rows. induction n as [|n IH]; intros rows Hlen; [constructor|].
  cbn [chunks4]. constructor.
  - rewrite length_take. lia.
  - apply IH. rewrite length_drop. lia.
Qed.

Lemma np_array_reshape_inv (ps : list polygon) n rows :
  np_array_reshape ps = Ok (n, rows) →
  n = length ps ∧ rows = concat ps ∧
  ∀ p p', p ∈ ps → p' ∈ ps → length p = length p'.
Proof.
  destruct ps as [|p0 ps]; simpl.
  - intros [= <- <-]. split_and!; [done..|]. by intros ?? ?%elem_of_nil.
  - destruct (forallb _ ps) eqn:Hall; [|done]. intros [= <- <-].
    split_and!; [done..|].
    assert (∀ p, p ∈ p0 :: ps → length p = length p0) as Hreg.
    { intros p [->|Hp]%elem_of_cons; [done|].
      rewrite forallb_forall in Hall.
      apply list_elem_of_In, Hall in Hp. by apply bool_decide_eq_true in Hp. }
    intros p p' Hp Hp'. by rewrite (Hreg p), (Hreg p').
Qed.

Lemma np_array_reshape_regular (ps : list polygon) k :
  Forall (λ p : polygon, length p = k) ps →
  np_array_reshape ps = Ok (length ps, concat ps).
Proof.
  intros Hall. destruct ps as [|p ps']; [done|]. unfold np_array_reshape.
  apply Forall_cons_1 in Hall as [Hp Hall].
  rewrite (proj2 (forallb_forall _ _)); [done|].
  intros p' Hin. apply bool_decide_eq_true.
  apply list_elem_of_In in Hin. rewrite Forall_forall in Hall.
  rewrite Hp. by apply Hall.
Qed.

Lemma concat_length_regular {A} (ps : list (list A)) k :
  (∀ p, p ∈ ps → length p = k) →
  length (concat ps) = (length ps * k)%nat.
Proof.
  induction ps as [|p ps IH]; intros Hk; [done|].
  simpl. rewrite length_app, IH.
  - rewrite (Hk p); [lia|by left].
  - intros p' Hp'. apply Hk. by right.
Qed.

Lemma np_array_keypoints_Ok (kps : Keypoints) rows :
  np_array_keypoints kps = Ok rows ↔
  rows = keypoints_rows kps ∧ kps ≠ KList [].
Proof.
  destruct kps as [rows'|[|kp items]]; simpl; split;
    try (intros [= <-]); try (intros [-> ?]); done.
Qed.

Lemma np_array_keypoints_Raise (kps : Keypoints) e :
  np_array_keypoints kps = Raise e ↔ e = IndexError ∧ kps = KList [].
Proof.
  destruct kps as [rows'|[|kp items]]; simpl; split;
    try (intros [= <-]); try (intros [-> ?]); done.
Qed.

(** What [Augment_call] does with a transform, from the transform's answer. *)
Lemma call_Some_eq (T : Transform) img r (heap : gmap nat Annotation)
    ann n rows res_img kps :
  heap !! r = Some ann →
  np_array_reshape (polygons ann) = Ok (n, rows) →
  T (np_array img) (scale_to_point (im_width img) (im_height img) <$> rows)
    = Ok (res_img, kps) →
  Augment_call (Some T) img r heap =
    match np_array_keypoints kps with
    | inl e => Raise e
    | inr rows' =>
      if bool_decide (length rows' = 4 * n)%nat
      then Ok (fromarray res_img, r,
               <[r := mkAnnotation
                  (chunks4 n (scale_from_point (im_width img) (im_height img)
                                <$> rows'))
                  (others ann)]> heap)
      else Raise ValueError
    end.
Proof.
  intros Hr Hps HT. unfold Augment_call, load, size. rewrite Hr. simpl.
  rewrite Hps. simpl. rewrite HT. simpl.
  destruct (np_array_keypoints kps) as [e|rows']; [done|]. simpl.
  unfold reshape_n_4_2. simpl.
  change (list_fmap _ _ ?f ?l) with (f <$> l). rewrite length_fmap.
  by repeat case_bool_decide; try lia.
Qed.

Lemma call_Some_inv (T : Transform) img r (heap : gmap nat Annotation) ann out :
  heap !! r = Some ann →
  Augment_call (Some T) img r heap = Ok out →
  ∃ rows res_img kps,
    np_array_reshape (polygons ann) = Ok (length (polygons ann), rows) ∧
    T (np_array img) (scale_to_point (im_width img) (im_height img) <$> rows)
      = Ok (res_img, kps) ∧
    kps ≠ KList [] ∧
    length (keypoints_rows kps) = (4 * length (polygons ann))%nat ∧
    out = (fromarray res_img, r,
           <[r := mkAnnotation
              (chunks4 (length (polygons ann))
                 (scale_from_point (im_width img) (im_height img)
                    <$> keypoints_rows kps))
              (others ann)]> heap).
Proof.
  intros Hr Hcall.
  destruct (np_array_reshape (polygons ann)) as [e|[n rows]] eqn:Hps.
  { unfold Augment_call, load in Hcall. rewrite Hr in Hcall. simpl in Hcall.
    by rewrite Hps in Hcall. }
  destruct (T (np_array img)
              (scale_to_point (im_width img) (im_height img) <$> rows))
    as [e|[res_img kps]] eqn:HT.
  { unfold Augment_call, load, size in Hcall. rewrite Hr in Hcall. simpl in Hcall.
    rewrite Hps in Hcall. simpl in Hcall. by rewrite HT in Hcall. }
  rewrite (call_Some_eq T img r heap ann n rows res_img kps) in Hcall by done.
  pose proof (np_array_reshape_inv _ _ _ Hps) as (-> & _ & _).
  exists rows, res_img, kps.
  destruct (np_array_keypoints kps) as [e|rows'] eqn:Hk; [done|].
  apply np_array_keypoints_Ok in Hk as [-> Hne].
  case_bool_decide; [|done]. by injection Hcall as <-.
Qed.
End megane2_call.


(** ** [toolz.groupby] in general *)

Lemma filter_none {A} (P : A → Prop) `{∀ x, Decision (P x)} (l : list A) :
  (∀ x, x ∈ l → ¬ P x) → filter P l = [].
Proof.
  induction l as [|x l IH]; intros Hl; [done|].
  rewrite filter_cons, decide_False by (apply Hl; by left).
  apply IH. intros y Hy. apply Hl. by right.
Qed.

Section groupby_spec.
Context {K A : Type} `{EqDecision K} (key : A → K).

Lemma owners_in_order_snoc (l : list K) k :
  owners_in_order (l ++ [k]) =
  if decide (k ∈ owners_in_order l) then owners_in_order l
  else owners_in_order l ++ [k].
Proof. unfold owners_in_order. by rewrite foldl_snoc. Qed.

Lemma owners_in_order_elem (l : list K) k :
  k ∈ owners_in_order l ↔ k ∈ l.
Proof.
  induction l as [|k' l IH] using rev_ind.
  - done.
  - rewrite owners_in_order_snoc, elem_of_app, list_elem_of_singleton.
    case_decide as Hin.
    + rewrite IH. split; [by left|]. intros [?| ->]; [done|]. by apply IH.
    + rewrite elem_of_app, list_elem_of_singleton. by rewrite IH.
Qed.

Lemma owners_in_order_NoDup (l : list K) : NoDup (owners_in_order l).
Proof.
  induction l as [|k l IH] using rev_ind.
  - constructor.
  - rewrite owners_in_order_snoc. case_decide; [done|].
    apply NoDup_app. split_and!; [done| |apply NoDup_singleton].
    intros k' Hk' ->%list_elem_of_singleton. done.
Qed.

Lemma dict_append_present (f : K → list A) (keys : list K) k0 v :
  NoDup keys → k0 ∈ keys →
  dict_append k0 v ((λ k, (k, f k)) <$> keys) =
  (λ k, (k, if decide (k = k0) then f k ++ [v] else f k)) <$> keys.
Proof.
  induction keys as [|k keys IH]; intros Hnd Hin.
  - by apply elem_of_nil in Hin.
  - apply NoDup_cons in Hnd as [Hk Hnd]. cbn [fmap list_fmap dict_append].
    destruct (decide (k0 = k)) as [->|Hne].
    + rewrite decide_True by done. f_equal.
      apply list_fmap_ext. intros _ k' Hk'%list_elem_of_lookup_2.
      rewrite decide_False; [done|]. by intros ->.
    + rewrite (decide_False (P:=k = k0)) by done. f_equal.
      apply IH; [done|]. by apply elem_of_cons in Hin as [?|?].
Qed.

Lemma groupby_snoc (seq : list A) x :
  groupby key (seq ++ [x]) = dict_append (key x) x (groupby key seq).
Proof. unfold groupby. by rewrite foldl_snoc. Qed.

(** [groupby] lists the keys in order of first occurrence, each with the
    items of that key in their order. *)
Lemma groupby_spec (seq : list A) :
  groupby key seq =
  (λ k, (k, filter (λ a, key a = k) seq)) <$> owners_in_order (key <$> seq).
Proof.
  induction seq as [|x seq IH] using rev_ind; [done|].
  rewrite groupby_snoc, IH, fmap_app.
  change (key <$> [x]) with [key x]. rewrite owners_in_order_snoc.
  case_decide as Hin.
  - rewrite dict_append_present by (done || apply owners_in_order_NoDup).
    apply list_fmap_ext. intros _ k _. f_equal.
    rewrite filter_app, filter_cons, filter_nil.
    destruct (decide (k = key x)), (decide (key x = k)); try done.
    by rewrite app_nil_r.
  - rewrite dict_append_fresh.
    2:{ by rewrite <- list_fmap_compose, list_fmap_id. }
    rewrite fmap_app. f_equal.
    + apply list_fmap_ext. intros _ k Hk%list_elem_of_lookup_2. f_equal.
      rewrite filter_app, filter_cons, filter_nil.
      rewrite decide_False; [by rewrite app_nil_r|]. by intros <-.
    + simpl. do 2 f_equal.
      rewrite filter_app, filter_cons, filter_nil, decide_True by done.
      rewrite filter_none; [done|]. intros a Ha Hkey.
      apply Hin, owners_in_order_elem, list_elem_of_fmap. eauto.
Qed.
End groupby_spec.

(** ** [decode] of albumen.py groups the keypoints by owner *)

Lemma py_index_Ok_range {A} (l : list A) i x :
  py_index l i = Ok x → - Z.of_nat (length l) ≤ i < Z.of_nat (length l).
Proof.
  unfold py_index. repeat case_bool_decide; try done; lia.
Qed.

Lemma traverse_Ok_inv {A B} (f : A → result B) (l : list A) ys x :
  traverse f l = Ok ys → x ∈ l → ∃ y, f x = Ok y.
Proof.
  revert ys. induction l as [|x' l IH]; intros ys; simpl.
  - by intros _ ?%elem_of_nil.
  - destruct (f x') as [e|y] eqn:Hx'; [done|]. simpl.
    destruct (traverse f l) as [e|ys'] eqn:Hl; [done|]. simpl.
    intros _ [->|Hin]%elem_of_cons; [eauto|]. by eapply IH.
Qed.

Lemma enumerate_snd {A} (l : list A) : (enumerate l).*2 = l.
Proof.
  unfold enumerate. rewrite fmap_imap.
  induction l as [|x l IH] using rev_ind; [done|].
  rewrite imap_app, IH. done.
Qed.

Lemma enumerate_lookup {A} (l : list A) j x :
  l !! j = Some x → (j, x) ∈ enumerate l.
Proof.
  intros Hj. unfold enumerate. apply list_elem_of_lookup. exists j.
  by rewrite list_lookup_imap, Hj.
Qed.

Section albumen_by_owner.
Import Albumen.

Lemma points_of_cons m pt masks xy i :
  points_of (m :: masks) (pt :: xy) i =
  if decide (m = i) then pt :: points_of masks xy i else points_of masks xy i.
Proof.
  unfold points_of. cbn [zip zip_with]. rewrite filter_cons. simpl.
  by case_decide.
Qed.

Lemma points_of_length masks xy i :
  (length masks ≤ length xy)%nat →
  length (points_of masks xy i) = length (filter (λ m, m = i) masks).
Proof.
  revert xy. induction masks as [|m masks IH]; intros xy Hlen; [done|].
  destruct xy as [|pt xy]; [simpl in Hlen; lia|].
  rewrite points_of_cons, filter_cons.
  case_decide; simpl; rewrite IH by (simpl in Hlen; lia); done.
Qed.

Lemma traverse_owner (masks : list Z) (xy pre : list point) (i : Z) :
  (length masks ≤ length xy)%nat →
  traverse (λ jm : nat * Z, py_index (pre ++ xy) (Z.of_nat jm.1))
    (filter (λ jm : nat * Z, jm.2 = i)
       (imap (λ j m, ((length pre + j)%nat, m)) masks))
  = Ok (points_of masks xy i).
Proof.
  revert xy pre. induction masks as [|m masks IH]; intros xy pre Hlen; [done|].
  destruct xy as [|pt xy]; [simpl in Hlen; lia|].
  rewrite imap_cons, filter_cons, points_of_cons.
  rewrite (imap_ext _ (λ j m, ((length (pre ++ [pt]) + j)%nat, m)) masks).
  2:{ intros; simpl. rewrite length_app. simpl. f_equal. lia. }
  specialize (IH xy (pre ++ [pt])).
  rewrite (cons_middle pt pre xy), app_assoc.
  cbn [snd]. case_decide.
  - cbn [traverse fst]. rewrite (py_index_nat _ _ pt).
    2:{ rewrite Nat.add_0_r, <- app_assoc, lookup_app_r, Nat.sub_diag by done.
        done. }
    simpl. rewrite IH by (simpl in Hlen; lia). done.
  - apply IH. simpl in Hlen. lia.
Qed.

Lemma traverse_owner_enumerate (masks : list Z) (xy : list point) (i : Z) :
  (length masks ≤ length xy)%nat →
  traverse (λ jm : nat * Z, py_index xy (Z.of_nat jm.1))
    (filter (λ jm : nat * Z, jm.2 = i) (enumerate masks))
  = Ok (points_of masks xy i).
Proof. exact (traverse_owner masks xy [] i). Qed.

Lemma decode_loop_by_owner xy cls w h (masks keys : list Z) acc :
  (length masks ≤ length xy)%nat →
  (∀ k, k ∈ keys → - Z.of_nat (length cls) ≤ k < Z.of_nat (length cls)) →
  ∃ cs,
    decode_loop xy cls w h acc
      ((λ k, (k, filter (λ jm : nat * Z, jm.2 = k) (enumerate masks))) <$> keys)
    = Ok (acc.1 ++
            ((λ i, scale_from (points_of masks xy i) w h) <$>
               filter (λ i, (2 < length (filter (λ m, m = i) masks))%nat) keys),
          acc.2 ++ cs) ∧
    Forall2 (λ i c, py_index cls i = Ok c)
      (filter (λ i, (2 < length (filter (λ m, m = i) masks))%nat) keys) cs.
Proof.
  intros Hlen. revert acc.
  induction keys as [|k keys IH]; intros acc Hkeys.
  - exists []. simpl. rewrite !app_nil_r. split; [by destruct acc|constructor].
  - cbn [fmap list_fmap decode_loop]. unfold decode_step at 1.
    rewrite (traverse_owner_enumerate masks xy k Hlen). simpl.
    rewrite scale_from_length, points_of_length by done.
    rewrite filter_cons.
    destruct (decide (2 < length (filter (λ m, m = k) masks))%nat) as [Hbig|Hsmall].
    + rewrite bool_decide_eq_true_2 by done.
      destruct (py_index_in_range cls k) as [c Hc].
      { apply Hkeys. by left. }
      rewrite Hc. simpl.
      destruct (IH (acc.1 ++ [scale_from (points_of masks xy k) w h],
                    acc.2 ++ [c])) as (cs & Hloop & Hcs).
      { intros k' Hk'. apply Hkeys. by right. }
      exists (c :: cs). split; [|by constructor].
      rewrite Hloop. simpl. by rewrite <- !app_assoc.
    + rewrite bool_decide_eq_false_2 by done. simpl.
      apply IH. intros k' Hk'. apply Hkeys. by right.
Qed.

(** With as many keypoints as owner indices, and owner indices that are
    indices of [classes], [decode] returns: one box for every owner that is
    left with more than two points, in order of first occurrence, made of
    the keypoints of that owner scaled by the size of the returned image;
    and the classes at these owners. *)
Theorem albumen_decode_groups_by_owner (outputs : Dict) :
  let masks := d_box_mapping outputs in
  let xy := d_keypoints outputs in
  let cls := d_classes outputs in
  let img := fromarray (d_image outputs) in
  (length masks ≤ length xy)%nat →
  Forall (λ i, - Z.of_nat (length cls) ≤ i < Z.of_nat (length cls)) masks →
  ∃ cs,
    decode outputs =
      Ok (mkSample img
            ((λ i, scale_from (points_of masks xy i) (im_width img) (im_height img))
               <$> surviving_owners masks)
            cs None) ∧
    Forall2 (λ i c, py_index cls i = Ok c) (surviving_owners masks) cs.
Proof.
  intros masks xy cls img Hlen Hcls.
  destruct (decode_loop_by_owner xy cls (im_width img) (im_height img) masks
              (owners_in_order masks) ([], []) Hlen) as (cs & Hloop & Hcs).
  { intros k Hk. apply (proj1 (owners_in_order_elem masks k)) in Hk.
    by apply (proj1 (Forall_forall _ _) Hcls). }
  exists cs. split; [|done].
  apply decode_loop_Ok. rewrite groupby_spec.
  replace ((λ i : nat * Z, i.2) <$> enumerate (d_box_mapping outputs))
    with masks; [exact Hloop|].
  unfold enumerate. rewrite fmap_imap.
  clear. subst masks. induction (d_box_mapping outputs) as [|m l IH]; [done|].
  rewrite imap_cons. simpl. f_equal. rewrite IH at 1. by apply imap_ext.
Qed.

(** The loop of [decode] raises nothing but IndexError, and the assertion
    after it cannot fail. *)
Lemma py_index_Raise {A} (l : list A) i e :
  py_index l i = Raise e → e = IndexError.
Proof.
  unfold py_index. case_bool_decide; [|by intros [= <-]].
  destruct (l !! _); simpl; [done|by intros [= <-]].
Qed.

Lemma traverse_Raise {A B} (f : A → result B) (l : list A) e :
  (∀ x e', f x = Raise e' → e' = IndexError) →
  traverse f l = Raise e → e = IndexError.
Proof.
  intros Hf. induction l as [|x l IH]; [done|]. simpl.
  destruct (f x) as [e'|y] eqn:Hx; simpl.
  - intros [= <-]. by eapply Hf.
  - destruct (traverse f l) as [e'|ys]; simpl; [|done].
    intros [= <-]. by apply IH.
Qed.

Lemma decode_loop_Raise xy cls w h groups acc e :
  decode_loop xy cls w h acc groups = Raise e → e = IndexError.
Proof.
  revert acc. induction groups as [|[i idx] groups IH]; intros acc; [done|].
  simpl. destruct (traverse _ idx) as [e'|pts] eqn:Hpts; simpl.
  - intros [= <-]. eapply traverse_Raise; [|exact Hpts].
    intros jm e'' He''. simpl in He''. by apply py_index_Raise in He''.
  - case_bool_decide; simpl; [|by apply IH].
    destruct (py_index cls i) as [e'|c] eqn:Hc; simpl; [|by apply IH].
    intros [= <-]. by apply py_index_Raise in Hc.
Qed.

Lemma albumen_decode_never_fails_its_assertion (outputs : Dict) e :
  decode outputs = Raise e → e = IndexError.
Proof.
  unfold decode, size, fromarray. cbn [im_width im_height].
  destruct (decode_loop _ _ _ _ _ _) as [e'|[bs cs]] eqn:Hloop; simpl.
  - intros [= <-]. by eapply decode_loop_Raise.
  - apply decode_loop_lengths in Hloop; [|done]. simpl in Hloop.
    by rewrite bool_decide_eq_true_2.
Qed.
(** The loop of [decode] over the groups, when there is a keypoint for
    every owner index and every owner that is left with more than two
    points is an index of [classes]. *)
Lemma decode_loop_by_surviving_owner xy cls w h (masks keys : list Z) acc :
  (length masks ≤ length xy)%nat →
  (∀ k, k ∈ keys → (2 < length (filter (λ m, m = k) masks))%nat →
        - Z.of_nat (length cls) ≤ k < Z.of_nat (length cls)) →
  ∃ cs,
    decode_loop xy cls w h acc
      ((λ k, (k, filter (λ jm : nat * Z, jm.2 = k) (enumerate masks))) <$> keys)
    = Ok (acc.1 ++
            ((λ i, scale_from (points_of masks xy i) w h) <$>
               filter (λ i, (2 < length (filter (λ m, m = i) masks))%nat) keys),
          acc.2 ++ cs) ∧
    Forall2 (λ i c, py_index cls i = Ok c)
      (filter (λ i, (2 < length (filter (λ m, m = i) masks))%nat) keys) cs.
Proof.
  intros Hlen. revert acc.
  induction keys as [|k keys IH]; intros acc Hkeys.
  - exists []. simpl. rewrite !app_nil_r. split; [by destruct acc|constructor].
  - cbn [fmap list_fmap decode_loop]. unfold decode_step at 1.
    rewrite (traverse_owner_enumerate masks xy k Hlen). simpl.
    rewrite scale_from_length, points_of_length by done.
    rewrite filter_cons.
    destruct (decide (2 < length (filter (λ m, m = k) masks))%nat) as [Hbig|Hsmall].
    + rewrite bool_decide_eq_true_2 by done.
      destruct (py_index_in_range cls k) as [c Hc].
      { apply Hkeys; [by left|done]. }
      rewrite Hc. simpl.
      destruct (IH (acc.1 ++ [scale_from (points_of masks xy k) w h],
                    acc.2 ++ [c])) as (cs & Hloop & Hcs).
      { intros k' Hk'. apply Hkeys. by right. }
      exists (c :: cs). split; [|by constructor].
      rewrite Hloop. simpl. by rewrite <- !app_assoc.
    + rewrite bool_decide_eq_false_2 by done. simpl.
      apply IH. intros k' Hk'. apply Hkeys. by right.
Qed.

(** When the loop of [decode] comes to its end, every group has found
    its keypoints, and every group of more than two its class. *)
Lemma decode_loop_Ok_groups xy cls w h groups acc acc' :
  decode_loop xy cls w h acc groups = Ok acc' →
  Forall (λ g : Z * list (nat * Z),
            ∃ pts, traverse (λ jm : nat * Z, py_index xy (Z.of_nat jm.1)) g.2
                     = Ok pts ∧
                   ((2 < length pts)%nat → ∃ c, py_index cls g.1 = Ok c))
    groups.
Proof.
  revert acc. induction groups as [|[i idx] groups IH]; intros acc; [done|].
  simpl. destruct (traverse _ idx) as [e|pts] eqn:Hpts; [done|]. simpl.
  rewrite scale_from_length. case_bool_decide as Hbig; simpl.
  - destruct (py_index cls i) as [e|c] eqn:Hc; [done|]. simpl.
    intros Hloop%IH. constructor; [|done]. exists pts. eauto.
  - intros Hloop%IH. constructor; [|done]. exists pts. split; [done|].
    intros. lia.
Qed.

Lemma albumen_decode_Ok_conditions (outputs : Dict) (s' : Sample) :
  let masks := d_box_mapping outputs in
  let xy := d_keypoints outputs in
  let cls := d_classes outputs in
  decode outputs = Ok s' →
  (length masks ≤ length xy)%nat ∧
  Forall (λ i, - Z.of_nat (length cls) ≤ i < Z.of_nat (length cls))
    (surviving_owners masks).
Proof.
  intros masks xy cls Hd. apply decode_Ok_inv in Hd as (_ & _ & _ & Hloop).
  apply decode_loop_Ok_groups in Hloop. rewrite groupby_spec in Hloop.
  rewrite enumerate_snd in Hloop. fold masks xy cls in Hloop.
  rewrite Forall_fmap, Forall_forall in Hloop.
  assert (length masks ≤ length xy)%nat as Hlen.
  { destruct (decide (length masks ≤ length xy)%nat) as [|Hgt]; [done|].
    exfalso.
    destruct (lookup_lt_is_Some_2 masks (length xy)) as [k Hk]; [lia|].
    destruct (Hloop k) as (pts & Hpts & _).
    { apply owners_in_order_elem. by eapply list_elem_of_lookup_2. }
    simpl in Hpts.
    eapply (traverse_Ok_inv _ _ _ (length xy, k)) in Hpts as [pt Hpt].
    - apply py_index_Ok_range in Hpt. simpl in Hpt. lia.
    - apply list_elem_of_filter. split; [done|]. by apply enumerate_lookup. }
  split; [done|]. apply Forall_forall. intros k Hk.
  apply list_elem_of_filter in Hk as [Hbig Hk].
  destruct (Hloop k Hk) as (pts & Hpts & Hcls). simpl in *.
  rewrite (traverse_owner_enumerate masks xy k Hlen) in Hpts.
  injection Hpts as <-. rewrite points_of_length in Hcls by done.
  destruct (Hcls Hbig) as [c Hc]. by eapply py_index_Ok_range.
Qed.

(** What [decode] returns, when it returns: one box for every owner that
    is left with more than two points, in order of first occurrence, and
    beside it the class at that owner's index. *)
Lemma albumen_decode_Ok_by_owner (outputs : Dict) (s' : Sample) :
  let masks := d_box_mapping outputs in
  let xy := d_keypoints outputs in
  let cls := d_classes outputs in
  let img := fromarray (d_image outputs) in
  decode outputs = Ok s' →
  boxes s' =
    (λ i, scale_from (points_of masks xy i) (im_width img) (im_height img))
      <$> surviving_owners masks ∧
  Forall2 (λ i c, py_index cls i = Ok c) (surviving_owners masks) (classes s').
Proof.
  intros masks xy cls img Hd.
  pose proof (albumen_decode_Ok_conditions outputs s' Hd) as [Hlen Hcls].
  destruct (decode_loop_by_surviving_owner xy cls (im_width img)
              (im_height img) masks (owners_in_order masks) ([], []) Hlen)
    as (cs & Hloop & Hcs).
  { intros k Hk Hbig. apply (proj1 (Forall_forall _ _) Hcls).
    by apply list_elem_of_filter. }
  apply decode_Ok_inv in Hd as (_ & _ & _ & Hloop').
  rewrite groupby_spec, enumerate_snd in Hloop'.
  change (arr_cols (d_image outputs)) with (im_width img) in Hloop'.
  change (arr_rows (d_image outputs)) with (im_height img) in Hloop'.
  fold masks xy cls in Hloop'.
  rewrite Hloop in Hloop'. simpl in Hloop'. by injection Hloop' as <- <-.
Qed.

End albumen_by_owner.

(** * The claims *)

(** C1, as stated, fails: with the two-point polygon of
    [triangle_and_segment], [encode], [idendity] and [decode] of albumen.py
    return a Sample that has lost that polygon, its class and all the
    scores. *)
Lemma roundtrip_drops_short_polygon :
  (e ← Albumen.encode triangle_and_segment;
   Albumen.decode (Albumen.idendity e))
    = Ok (mkSample (mkImage 4 2 0) [tri_a] [7] None) ∧
  [tri_a] ≠ boxes triangle_and_segment ∧
  [7] ≠ classes triangle_and_segment ∧
  None ≠ scores triangle_and_segment.
Proof. split_and!; by_evaluation. Qed.

(** C1, amended.  For every Sample that satisfies the invariant of the
    data model and whose polygons all have more than two points: if it has
    at least one box, [encode], [idendity] and [decode] of albumen.py
    return its image, boxes and classes unchanged, and no scores; and
    [encode], the identity and [decode] of augment.py return its image,
    classes and scores unchanged, and as many boxes as it had.  Rationals
    stand for the floats, so nothing is rounded. *)
Theorem roundtrip_identity (s : Sample) :
  sample_wf s →
  Forall (λ p : polygon, (2 < length p)%nat) (boxes s) →
  (boxes s ≠ [] →
   (e ← Albumen.encode s; Albumen.decode (Albumen.idendity e))
     = Ok (mkSample (image s) (boxes s) (classes s) None)) ∧
  (∃ s', (d ← same_dict (Augment.encode s); Augment.decode s d) = Ok s' ∧
     image s' = image s ∧ classes s' = classes s ∧ scores s' = scores s ∧
     length (boxes s') = length (boxes s)).
Proof.
  intros Hwf Hbig. split.
  - intros Hboxes. apply albumen_roundtrip; [done..|]. apply Hwf.
  - by apply augment_roundtrip.
Qed.

Lemma roundtrip_identity_witness :
  (e ← Albumen.encode two_triangles; Albumen.decode (Albumen.idendity e))
    = Ok (mkSample (mkImage 4 2 0) [tri_a; tri_b] [7; 8] None) ∧
  (∃ s', Augment.decode two_triangles (Augment.encode two_triangles) = Ok s' ∧
     image s' = mkImage 4 2 0 ∧ classes s' = [7; 8] ∧
     scores s' = Some [q 9 10; q 4 5] ∧ length (boxes s') = 2%nat).
Proof.
  assert (sample_wf two_triangles) as Hwf.
  { split; [reflexivity|]. intros sc [= <-]. reflexivity. }
  assert (Forall (λ p : polygon, (2 < length p)%nat) (boxes two_triangles))
    as Hbig.
  { repeat constructor. }
  destruct (roundtrip_identity two_triangles Hwf Hbig) as [Halb Haug].
  split; [|exact Haug]. apply Halb. discriminate.
Defined.

(** C2 does not hold of augment.py: its [decode] builds the
    boxes with [[[]] * n], one list object behind every box, so each
    keypoint is appended to all of them (albumen.py groups them by
    owner, see [albumen_decode_groups_by_owner]).  On the untouched encoding of
    [two_triangles] it returns two boxes of six points, each holding the
    points of both triangles. *)
Theorem decode_puts_every_keypoint_in_every_box :
  Augment.decode two_triangles (Augment.encode two_triangles)
    = Ok (mkSample (mkImage 4 2 0) [tri_a ++ tri_b; tri_a ++ tri_b] [7; 8]
            (Some [q 9 10; q 4 5])).
Proof. by_evaluation. Qed.

(** C3 does not hold of augment.py: the same shared list makes every box
    as long as the whole keypoint list, so the boxes are kept or dropped
    all together.  When the transform removes every point of the second box
    of [two_triangles] and leaves the first its three, [decode] keeps both
    boxes and both classes; and on the untouched encoding of
    [triangle_and_segment] it keeps the box that has two points. *)
Theorem decode_keeps_box_without_points :
  Augment.decode two_triangles second_box_lost
    = Ok (mkSample (mkImage 4 2 0) [tri_a; tri_a] [7; 8]
            (Some [q 9 10; q 4 5])) ∧
  Augment.decode triangle_and_segment (Augment.encode triangle_and_segment)
    = Ok (mkSample (mkImage 4 2 0) [tri_a ++ segment; tri_a ++ segment] [7; 8]
            (Some [q 9 10; q 4 5])).
Proof. split; by_evaluation. Qed.

(** On the same data, [decode] of albumen.py returns the one box that is
    left, and its class. *)
Lemma albumen_decode_drops_emptied_box :
  Albumen.decode
    (Albumen.mkDict (mkArray 2 4 0) (scale_to tri_a 4 2) [0; 0; 0] [7; 8])
  = Ok (mkSample (mkImage 4 2 0) [tri_a] [7] None).
Proof. by_evaluation. Qed.

(** C4.  [decode] filters classes and scores in lockstep with the boxes.
    In augment.py, for a Sample that satisfies the invariant of the data
    model, the list [keeps] holds for every box of the input, in order,
    whether the list of points collected for it has more than two points;
    that one list selects, position by position, the boxes, the classes
    and, when the input has scores, the scores of the result, which are
    therefore equally many.  (The list collected for every box is the list
    of all the keypoints: see C2.)  In albumen.py, whose [decode] takes no
    Sample and returns no scores, the boxes of the result are those of the
    owner indices that are left with more than two keypoints, in order of
    first occurrence, and the class beside each box is the class at that
    box's owner index.  Both return a Sample when every entry of
    [box_mapping] is an index of the list it is used on and, for
    albumen.py, has its keypoint. *)
Theorem decode_filters_in_lockstep :
  (∀ (s : Sample) (outputs : Augment.Dict) (s' : Sample),
     sample_wf s →
     Augment.decode s outputs = Ok s' →
     let w := im_width (image s) in
     let h := im_height (image s) in
     let all :=
       (zip (Augment.d_box_mapping outputs) (Augment.d_keypoints outputs)).*2 in
     let collected := replicate (length (boxes s)) all in
     let keeps := (λ box : polygon, bool_decide (2 < length box)%nat)
                    <$> collected in
     boxes s' =
       select ((λ box, normalize_polygon box w h) <$> collected) keeps ∧
     classes s' = select (classes s) keeps ∧
     scores s' = (λ sc, select sc keeps) <$> scores s ∧
     length (boxes s') = length (classes s') ∧
     ∀ sc', scores s' = Some sc' → length sc' = length (boxes s')) ∧
  (∀ (outputs : Albumen.Dict) (s' : Sample),
     Albumen.decode outputs = Ok s' →
     let masks := Albumen.d_box_mapping outputs in
     let xy := Albumen.d_keypoints outputs in
     let img := fromarray (Albumen.d_image outputs) in
     let owners := surviving_owners masks in
     boxes s' =
       (λ i, scale_from (points_of masks xy i) (im_width img) (im_height img))
         <$> owners ∧
     Forall2 (λ i c, py_index (Albumen.d_classes outputs) i = Ok c)
       owners (classes s') ∧
     length (boxes s') = length (classes s') ∧ scores s' = None) ∧
  (∀ (s : Sample) (outputs : Augment.Dict),
     Forall (λ m, - Z.of_nat (length (boxes s)) ≤ m
                  < Z.of_nat (length (boxes s)))
       (zip (Augment.d_box_mapping outputs) (Augment.d_keypoints outputs)).*1 →
     ∃ s', Augment.decode s outputs = Ok s') ∧
  (∀ (outputs : Albumen.Dict),
     (length (Albumen.d_box_mapping outputs)
        ≤ length (Albumen.d_keypoints outputs))%nat →
     Forall (λ m, - Z.of_nat (length (Albumen.d_classes outputs)) ≤ m
                  < Z.of_nat (length (Albumen.d_classes outputs)))
       (Albumen.d_box_mapping outputs) →
     ∃ s', Albumen.decode outputs = Ok s').
Proof.
  split_and!.
  - intros s outputs s' [Hcls Hsc] Hdec w h all collected keeps.
    apply augment_decode_shared in Hdec. cbv zeta in Hdec.
    fold all w h in Hdec.
    assert (keeps = replicate (length (boxes s))
                      (bool_decide (2 < length all)%nat)) as Hkeeps
      by (unfold keeps, collected; by rewrite fmap_replicate).
    assert ((λ box, normalize_polygon box w h) <$> collected =
            replicate (length (boxes s)) (normalize_polygon all w h)) as Hbs
      by (unfold collected; by rewrite fmap_replicate).
    rewrite Hbs. rewrite <- Hkeeps in Hdec.
    assert (length keeps = length (boxes s)) as Hlen
      by (by rewrite Hkeeps, length_replicate).
    subst s'. cbn [boxes classes scores].
    split_and!; try done.
    + rewrite !select_length; [done|congruence|].
      by rewrite length_replicate.
    + intros sc'. destruct (scores s) as [sc|]; [|done].
      intros [= <-]. rewrite !select_length; [done| |].
      * by rewrite length_replicate.
      * rewrite Hlen. by apply Hsc.
  - intros outputs s' Hdec masks xy img owners.
    pose proof (albumen_decode_Ok_by_owner outputs s' Hdec) as [Hbs Hcs].
    apply decode_Ok_inv in Hdec as (_ & ? & ? & _). by split_and!.
  - apply augment_decode_returns.
  - intros outputs Hlen Hcls.
    destruct (albumen_decode_groups_by_owner outputs Hlen Hcls) as (cs & -> & _).
    eauto.
Qed.

Lemma decode_filters_in_lockstep_witness :
  (Augment.decode two_triangles second_box_lost
     = Ok (mkSample (mkImage 4 2 0) [tri_a; tri_a] [7; 8]
             (Some [q 9 10; q 4 5])) ∧
   [7; 8] = select (classes two_triangles) [true; true] ∧
   Some [q 9 10; q 4 5] = Some (select [q 9 10; q 4 5] [true; true])) ∧
  (Albumen.decode
     (Albumen.mkDict (mkArray 2 4 0) (scale_to (tri_a ++ segment) 4 2)
        [0; 0; 0; 1; 1] [7; 8])
     = Ok (mkSample (mkImage 4 2 0) [tri_a] [7] None) ∧
   Forall2 (λ i c, py_index [7; 8] i = Ok c)
     (surviving_owners [0; 0; 0; 1; 1]) [7]).
Proof.
  destruct decode_filters_in_lockstep as (Haug & Halb & _ & _). split.
  - assert (Augment.decode two_triangles second_box_lost
            = Ok (mkSample (mkImage 4 2 0) [tri_a; tri_a] [7; 8]
                    (Some [q 9 10; q 4 5]))) as Hdec by by_evaluation.
    split; [exact Hdec|].
    assert (sample_wf two_triangles) as Hwf.
    { split; [reflexivity|]. intros sc [= <-]. reflexivity. }
    destruct (Haug two_triangles second_box_lost _ Hwf Hdec)
      as (_ & Hcs & Hsc & _ & _).
    split; [exact Hcs|exact Hsc].
  - assert (Albumen.decode
              (Albumen.mkDict (mkArray 2 4 0) (scale_to (tri_a ++ segment) 4 2)
                 [0; 0; 0; 1; 1] [7; 8])
            = Ok (mkSample (mkImage 4 2 0) [tri_a] [7] None)) as Hdec
      by by_evaluation.
    split; [exact Hdec|].
    destruct (Halb _ _ Hdec) as (_ & Hcs & _ & _). exact Hcs.
Defined.

(** C5, as stated, fails: [encode] of albumen.py does not return for
    every Sample.  It raises on a Sample without boxes, and its assertion
    fails on a Sample whose last polygon has no points. *)
Lemma encode_raises_on_some_samples :
  Albumen.encode no_boxes = Raise ValueError ∧
  Albumen.encode triangle_and_nothing = Raise AssertionError.
Proof. split; reflexivity. Qed.

(** C5, amended.  [encode] flattens the polygons: the keypoints are the
    points of the boxes, scaled to pixels, box after box and in the order
    of each polygon, and [box_mapping] is as long and names, at every
    position, the box the keypoint came from; the point [j] of box [i]
    sits at the position that counts the points of the boxes before [i],
    plus [j].  [encode] of augment.py returns this for every Sample;
    [encode] of albumen.py returns it exactly when its assertion holds,
    that is when the largest owner index is [len(classes) - 1]. *)
Theorem encode_flattens_polygons (s : Sample) :
  let w := im_width (image s) in
  let h := im_height (image s) in
  let flat := concat ((λ p, scale_to p w h) <$> boxes s) in
  let owners :=
    concat (imap (λ i p, replicate (length p) (Z.of_nat i)) (boxes s)) in
  (Augment.d_keypoints (Augment.encode s) = flat ∧
   Augment.d_box_mapping (Augment.encode s) = owners) ∧
  (∀ e, Albumen.encode s = Ok e →
     Albumen.d_keypoints e = flat ∧ Albumen.d_box_mapping e = owners) ∧
  ((∃ e, Albumen.encode s = Ok e) ↔
     py_max owners = Ok (Z.of_nat (length (classes s)) - 1)) ∧
  length owners = length flat ∧
  ∀ (i j : nat) (poly : polygon) (pt : point),
    boxes s !! i = Some poly → poly !! j = Some pt →
    let k := (length (concat (take i (boxes s))) + j)%nat in
    flat !! k = Some (scale_to_point w h pt) ∧
    owners !! k = Some (Z.of_nat i).
Proof.
  intros w h flat owners. split_and!.
  - by rewrite Augment_encode_eq.
  - by rewrite Augment_encode_eq.
  - intros e. rewrite Albumen_encode_eq. cbv zeta. fold owners.
    destruct (py_max owners) as [?|m]; [done|]. simpl.
    case_bool_decide; [|done]. by intros [= <-].
  - rewrite Albumen_encode_eq. cbv zeta. fold owners. split.
    + intros [e He]. destruct (py_max owners) as [?|m]; [done|].
      simpl in He. case_bool_decide; [|done]. by subst m.
    + intros ->. simpl. rewrite bool_decide_eq_true_2 by done. eauto.
  - unfold owners, flat. by rewrite owners_length_0, scaled_concat_length.
  - intros i j poly pt Hi Hj k. split.
    + unfold flat, k.
      replace (length (concat (take i (boxes s))))
        with (length (concat (take i ((λ p, scale_to p w h) <$> boxes s)))).
      * apply concat_lookup_offset with (scale_to poly w h).
        -- by rewrite list_lookup_fmap, Hi.
        -- unfold scale_to. by rewrite list_lookup_fmap, Hj.
      * by rewrite <- fmap_take, scaled_concat_length.
    + apply (owners_lookup_offset (boxes s) 0 i poly j Hi).
      by eapply lookup_lt_Some.
Qed.

Lemma encode_flattens_polygons_witness :
  Augment.d_box_mapping (Augment.encode two_triangles) = [0; 0; 0; 1; 1; 1] ∧
  (∃ e, Albumen.encode two_triangles = Ok e) ∧
  Augment.d_keypoints (Augment.encode two_triangles) !! 5%nat
    = Some (scale_to_point 4 2 (q 1 1, q 1 1)) ∧
  Augment.d_box_mapping (Augment.encode two_triangles) !! 5%nat = Some 1.
Proof.
  destruct (encode_flattens_polygons two_triangles)
    as ([Hkps Hmap] & _ & Hret & _ & Htrace).
  cbv zeta in *. rewrite Hkps, Hmap. split_and!.
  - reflexivity.
  - apply Hret. reflexivity.
  - apply (Htrace 1%nat 2%nat tri_b (q 1 1, q 1 1)); reflexivity.
  - apply (Htrace 1%nat 2%nat tri_b (q 1 1, q 1 1)); reflexivity.
Defined.

(** C6 does not hold of augment.py: its [decode] divides the
    keypoints by the width and height of the Sample it was given, not of
    the image it returns.  After a quarter turn of [corner_triangle], an
    image 4 wide and 2 high, the decoded image is 2 wide and 4 high and
    the corner at pixel [(0, 4)] is returned as [(0, 2)]; scaled by the
    decoded image it is [(0, 1)]. *)
Theorem decode_scales_by_the_input_image :
  Augment.decode corner_triangle quarter_turn
    = Ok (mkSample (mkImage 2 4 0)
            [[(q 0 1, q 2 1); (q 0 1, q 0 1); (q 1 2, q 0 1)]] [7] None) ∧
  scale_from (Augment.d_keypoints quarter_turn) 2 4
    = [(q 0 1, q 1 1); (q 0 1, q 0 1); (q 1 1, q 0 1)].
Proof. split; by_evaluation. Qed.

(** On the same data, [decode] of albumen.py scales by the image it
    returns. *)
Lemma albumen_decode_scales_by_output_image :
  Albumen.decode
    (Albumen.mkDict (mkArray 4 2 0)
       [(q 0 1, q 4 1); (q 0 1, q 0 1); (q 2 1, q 0 1)] [0; 0; 0] [7])
  = Ok (mkSample (mkImage 2 4 0)
          [[(q 0 1, q 1 1); (q 0 1, q 0 1); (q 1 1, q 0 1)]] [7] None).
Proof. by_evaluation. Qed.

(** C7, as stated, fails: [Augment.__call__] of megane2 writes the new
    polygons into the annotation it was given and returns that same
    object.  With a transform that moves the keypoints, the annotation at
    reference 0 is not what it was. *)
Lemma megane2_call_overwrites_annotation :
  Megane2.Augment_call (Some shift_right) (mkImage 4 2 0) 0%nat quad_heap
    = Ok (mkImage 4 2 0, 0%nat,
          {[ 0%nat := Megane2.mkAnnotation [quad_moved] ∅ ]}) ∧
  ({[ 0%nat := Megane2.mkAnnotation [quad_moved] ∅ ]}
     : gmap nat Megane2.Annotation) !! 0%nat
    ≠ quad_heap !! 0%nat.
Proof. split; by_evaluation. Qed.

(** C7, amended.  A pass of [Augmentation.__call__] of augment.py replaces
    the Sample.  With a transform that changes no object other than the
    two lists it is handed, every object that was on the heap before the
    pass is as it was after it: the input Sample, its list of boxes, every
    polygon, its classes and its scores; and the result is a new Sample
    object whose lists of boxes, polygons, classes and scores are new
    objects too, none shared with the input.  It holds what [decode]
    computes from the input Sample and from the lists that the transform
    has left.  [Augment.__call__] of megane2 with a transform instead
    updates the annotation in place: it returns the reference it was
    given, and in the heap the ['polygons'] of that annotation are now the
    transform's keypoints, scaled back and cut into polygons of four
    points, while the other entries of the annotation and the other
    objects are as they were; without a transform it returns the image
    and the annotation as they are. *)
Theorem augmentation_pass_effect :
  (∀ (T : Augment.Callable) (sample : nat) (heap : gmap nat Augment.object)
     r' heap',
     keeps_to_its_arguments T →
     Augment.Augmentation_call T sample heap = Ok (r', heap') →
     (∀ l o, heap !! l = Some o → heap' !! l = Some o) ∧
     Augment.get_sample heap' sample = Augment.get_sample heap sample ∧
     heap !! r' = None ∧
     ∃ img boxes classes scores polygons,
       heap' !! r' = Some (Augment.SampleObj img boxes classes scores) ∧
       heap' !! boxes = Some (Augment.PolygonsObj polygons) ∧
       heap !! boxes = None ∧ heap !! classes = None ∧
       (∀ l, scores = Some l → heap !! l = None) ∧
       Forall (λ l, heap !! l = None) polygons ∧
       ∃ s enc heap1 out heap2 keypoints box_mapping dec,
         Augment.get_sample heap sample = Ok s ∧
         Augment.encode_obj sample heap = Ok (enc, heap1) ∧
         T enc heap1 = Ok (out, heap2) ∧
         Augment.get_points heap2 (Augment.o_keypoints out) = Ok keypoints ∧
         Augment.get_ints heap2 (Augment.o_box_mapping out) = Ok box_mapping ∧
         Augment.decode s
           (Augment.mkDict (Augment.o_image out) keypoints box_mapping)
           = Ok dec ∧
         Augment.get_sample heap' r' = Ok dec) ∧
  (∀ (T : Megane2.Transform) img (r : nat)
     (heap : gmap nat Megane2.Annotation) ann img' r' heap',
     heap !! r = Some ann →
     Megane2.Augment_call (Some T) img r heap = Ok (img', r', heap') →
     r' = r ∧
     (∀ l, l ≠ r → heap' !! l = heap !! l) ∧
     ∃ res_img kps,
       T (np_array img)
         (scale_to_point (im_width img) (im_height img)
            <$> concat (Megane2.polygons ann)) = Ok (res_img, kps) ∧
       img' = fromarray res_img ∧
       heap' =
         <[r := Megane2.mkAnnotation
                  (Megane2.chunks4 (length (Megane2.polygons ann))
                     (scale_from_point (im_width img) (im_height img)
                        <$> Megane2.keypoints_rows kps))
                  (Megane2.others ann)]> heap) ∧
  (∀ img (r : nat) (heap : gmap nat Megane2.Annotation),
     Megane2.Augment_call None img r heap = Ok (img, r, heap)).
Proof.
  split_and!.
  - intros T sample heap r' heap' HT Hcall.
    apply (call_inv T sample heap r' heap' HT) in Hcall
      as (s & enc & heap1 & out & heap2 & kps & bm & dec & img & bs & cs & scs
          & polys & Hs & Henc & Hout & Hkps & Hbm & Hdec & Hsub & Hr' & Hlr'
          & Hlbs & Hbs & Hcs & Hscs & Hpolys & Hread).
    split_and!.
    + intros l o Hl. by apply (lookup_weaken heap).
    + rewrite Hs. by apply (get_sample_weaken heap).
    + done.
    + exists img, bs, cs, scs, polys. split_and!; try done.
      by exists s, enc, heap1, out, heap2, kps, bm, dec.
  - intros T img r heap ann img' r' heap' Hr Hcall.
    apply (call_Some_inv T img r heap ann) in Hcall
      as (rows & res_img & kps & Hps & HT & _ & _ & [= -> -> ->]); [|done].
    apply np_array_reshape_inv in Hps as (_ & -> & _).
    split_and!; [done| |by exists res_img, kps].
    intros l Hl. by apply lookup_insert_ne.
  - done.
Qed.

Lemma move_in_place_keeps_to_its_arguments :
  keeps_to_its_arguments move_in_place.
Proof.
  intros enc heap out heap'. unfold move_in_place.
  destruct (Augment.get_points heap _) as [e|kps]; [done|].
  intros [= <- <-] l o Hl Hkp _. by rewrite lookup_insert_ne.
Qed.

Lemma augmentation_pass_effect_witness :
  (∃ heap',
     Augment.Augmentation_call move_in_place 0%nat sample_heap
       = Ok (13%nat, heap') ∧
     Augment.get_sample heap' 0%nat = Ok two_triangles ∧
     sample_heap !! 13%nat = None ∧
     heap' !! 1%nat = Some (Augment.PolygonsObj [2%nat; 3%nat])) ∧
  0%nat = 0%nat.
Proof.
  destruct augmentation_pass_effect as (Haug & Hm2 & _). split.
  - destruct (Augment.Augmentation_call move_in_place 0%nat sample_heap)
      as [e|[r' heap']] eqn:Hcall.
    { exfalso. revert Hcall. vm_compute. discriminate. }
    assert (r' = 13%nat) as ->.
    { revert Hcall. vm_compute. by intros [= <- _]. }
    exists heap'. split; [done|].
    destruct (Haug move_in_place 0%nat sample_heap 13%nat heap'
                move_in_place_keeps_to_its_arguments Hcall)
      as (Hold & Hsame & Hnew & _).
    split_and!.
    + rewrite Hsame. by_evaluation.
    + exact Hnew.
    + apply Hold. reflexivity.
  - destruct (Hm2 shift_right (mkImage 4 2 0) 0%nat quad_heap
       (Megane2.mkAnnotation [quad] ∅) (mkImage 4 2 0) 0%nat
       {[ 0%nat := Megane2.mkAnnotation [quad_moved] ∅ ]}) as [Hr _].
    + reflexivity.
    + by_evaluation.
    + exact Hr.
Defined.

(** C8.  The checks of albumen.py fail fast.  Whatever [encode] returns
    satisfies its assertion, the largest entry of [box_mapping] is
    [len(classes) - 1]; when the largest owner index is anything else,
    [encode] raises AssertionError and returns nothing.  Whatever [decode]
    returns satisfies its assertion, as many boxes as classes.  An
    exception of [encode] is the exception of everything that runs after
    it: nothing catches it. *)
Theorem invariant_checks_fail_fast :
  (∀ (s : Sample) (e : Albumen.Dict),
     Albumen.encode s = Ok e →
     py_max (Albumen.d_box_mapping e) = Ok (Z.of_nat (length (classes s)) - 1)) ∧
  (∀ (s : Sample) (m : Z),
     py_max (concat (imap (λ i p, replicate (length p) (Z.of_nat i)) (boxes s)))
       = Ok m →
     m ≠ Z.of_nat (length (classes s)) - 1 →
     Albumen.encode s = Raise AssertionError) ∧
  (∀ (outputs : Albumen.Dict) (s' : Sample),
     Albumen.decode outputs = Ok s' →
     length (boxes s') = length (classes s')) ∧
  (∀ (s : Sample) (err : exn) (rest : Albumen.Dict → result Sample),
     Albumen.encode s = Raise err →
     (e ← Albumen.encode s; rest e) = Raise err).
Proof.
  split_and!.
  - intros s e. rewrite Albumen_encode_eq. cbv zeta.
    destruct (py_max _) as [?|m] eqn:Hmax; [done|]. simpl.
    case_bool_decide; [|done]. intros [= <-]. simpl. by subst m.
  - intros s m Hm Hne. rewrite Albumen_encode_eq. cbv zeta.
    rewrite Hm. simpl. by rewrite bool_decide_eq_false_2.
  - intros outputs s' Hdec.
    by apply decode_Ok_inv in Hdec as (_ & _ & ? & _).
  - by intros s err rest ->.
Qed.

Lemma invariant_checks_fail_fast_witness :
  Albumen.encode one_box_two_classes = Raise AssertionError ∧
  py_max [0; 0; 0; 1; 1; 1] = Ok (Z.of_nat (length (classes two_triangles)) - 1) ∧
  length [tri_a] = length [7] ∧
  (e ← Albumen.encode no_boxes; Albumen.decode e) = Raise ValueError.
Proof.
  destruct invariant_checks_fail_fast as (Hok & Hfail & Hdec & Hprop).
  split_and!.
  - apply (Hfail one_box_two_classes 0); [reflexivity|discriminate].
  - apply (Hok two_triangles
             (Albumen.mkDict (mkArray 2 4 0)
                (scale_to (tri_a ++ tri_b) 4 2) [0; 0; 0; 1; 1; 1] [7; 8])).
    by_evaluation.
  - apply (Hdec (Albumen.mkDict (mkArray 2 4 0)
                   (scale_to (tri_a ++ segment) 4 2) [0; 0; 0; 1; 1] [7; 8])
                (mkSample (mkImage 4 2 0) [tri_a] [7] None)).
    by_evaluation.
  - apply Hprop. reflexivity.
Defined.

(** C9.  On a Sample without boxes, [encode] of albumen.py raises: [max]
    of the empty [box_mapping] is a ValueError, and nothing is returned. *)
Theorem encode_raises_without_boxes (s : Sample) :
  boxes s = [] → Albumen.encode s = Raise ValueError.
Proof. intros Hs. rewrite Albumen_encode_eq, Hs. done. Qed.

Lemma encode_raises_without_boxes_witness :
  Albumen.encode no_boxes = Raise ValueError.
Proof. apply (encode_raises_without_boxes no_boxes). reflexivity. Defined.

(** C10, as stated, fails: [Augment.__call__] of megane2 is defined on an
    annotation whose one polygon has two points, when the transform
    returns four keypoints for the two it was given. *)
Lemma megane2_call_accepts_two_point_polygon :
  Megane2.Augment_call (Some twice) (mkImage 4 2 0) 0%nat segment_heap
    = Ok (mkImage 4 2 0, 0%nat,
          {[ 0%nat := Megane2.mkAnnotation [segment ++ segment] ∅ ]}) ∧
  length segment = 2%nat.
Proof. split; [by_evaluation|reflexivity]. Qed.

(** C10, amended.  Without a transform [Augment.__call__] of megane2
    returns the image and the annotation unchanged.  With a transform it
    is defined only when the transform returns exactly four keypoints for
    each polygon of the annotation, and not as an empty list; the
    keypoints, scaled back, are then cut in order into as many polygons
    as the annotation had, of four points each, none dropped; and, the
    call being defined, the transform has returned as many keypoints as
    it was given exactly when every polygon of the annotation has four
    points.  When the transform returns any other number of keypoints, or
    an empty list, the call raises.  When the polygons of the annotation
    all have the same number of points, the call is defined whenever the
    transform returns four keypoints for each of them, not as an empty
    list: in particular on an annotation without polygons, when the
    transform returns an array without rows. *)
Theorem megane2_call_domain (transform : Megane2.Transform) (img : PILImage)
    (r : nat) (heap : gmap nat Megane2.Annotation) (ann : Megane2.Annotation) :
  heap !! r = Some ann →
  let w := im_width img in
  let h := im_height img in
  let given := scale_to_point w h <$> concat (Megane2.polygons ann) in
  let n := length (Megane2.polygons ann) in
  Megane2.Augment_call None img r heap = Ok (img, r, heap) ∧
  (∀ out, Megane2.Augment_call (Some transform) img r heap = Ok out →
     ∃ res_img kps polys,
       transform (np_array img) given = Ok (res_img, kps) ∧
       kps ≠ Megane2.KList [] ∧
       length (Megane2.keypoints_rows kps) = (4 * n)%nat ∧
       out = (fromarray res_img, r,
              <[r := Megane2.mkAnnotation polys (Megane2.others ann)]> heap) ∧
       polys = Megane2.chunks4 n
                 (scale_from_point w h <$> Megane2.keypoints_rows kps) ∧
       length polys = n ∧
       Forall (λ p : polygon, length p = 4%nat) polys ∧
       concat polys = scale_from_point w h <$> Megane2.keypoints_rows kps ∧
       (length (Megane2.keypoints_rows kps) = length given ↔
        Forall (λ p : polygon, length p = 4%nat) (Megane2.polygons ann))) ∧
  (∀ res_img kps,
     transform (np_array img) given = Ok (res_img, kps) →
     length (Megane2.keypoints_rows kps) ≠ (4 * n)%nat ∨
       kps = Megane2.KList [] →
     ∃ err, Megane2.Augment_call (Some transform) img r heap = Raise err) ∧
  (∀ res_img kps k,
     Forall (λ p : polygon, length p = k) (Megane2.polygons ann) →
     transform (np_array img) given = Ok (res_img, kps) →
     kps ≠ Megane2.KList [] →
     length (Megane2.keypoints_rows kps) = (4 * n)%nat →
     Megane2.Augment_call (Some transform) img r heap =
       Ok (fromarray res_img, r,
           <[r := Megane2.mkAnnotation
                    (Megane2.chunks4 n
                       (scale_from_point w h <$> Megane2.keypoints_rows kps))
                    (Megane2.others ann)]> heap)).
Proof.
  intros Hr w h given n. split_and!; [done| | |].
  - intros out Hcall.
    apply (call_Some_inv transform img r heap ann) in Hcall
      as (rows & res_img & kps & Hps & HT & Hkps & Hlen & ->); [|done].
    apply np_array_reshape_inv in Hps as (_ & -> & Hreg).
    exists res_img, kps,
      (Megane2.chunks4 n (scale_from_point w h <$> Megane2.keypoints_rows kps)).
    split_and!; try done.
    + apply chunks4_length.
    + apply chunks4_quads. by rewrite length_fmap.
    + apply chunks4_concat. by rewrite length_fmap.
    + unfold given. rewrite length_fmap, Hlen. fold n.
      destruct (Megane2.polygons ann) as [|p0 ps] eqn:Hpolys.
      { done. }
      rewrite (concat_length_regular (p0 :: ps) (length p0)).
      2:{ intros p Hp. apply Hreg; [done|by left]. }
      fold n. split.
      * intros Heq. assert (length p0 = 4%nat) as H4.
        { subst n. simpl in *. nia. }
        apply Forall_forall. intros p Hp.
        rewrite <- H4. apply Hreg; [done|by left].
      * intros Hall. apply Forall_cons_1 in Hall as [-> _]. lia.
  - intros res_img kps HT Hbad.
    destruct (Megane2.np_array_reshape (Megane2.polygons ann))
      as [err|[n' rows]] eqn:Hps.
    { exists err. unfold Megane2.Augment_call, load. rewrite Hr. simpl.
      by rewrite Hps. }
    pose proof (np_array_reshape_inv _ _ _ Hps) as (-> & -> & _).
    rewrite (call_Some_eq transform img r heap ann _ _ res_img kps Hr Hps HT).
    destruct (Megane2.np_array_keypoints kps) as [e|rows'] eqn:Hk; [by eexists|].
    apply np_array_keypoints_Ok in Hk as [-> Hne].
    destruct Hbad as [Hlen|Hnil]; [|done].
    rewrite bool_decide_eq_false_2 by done. by eexists.
  - intros res_img kps k Hreg HT Hne Hlen.
    rewrite (call_Some_eq transform img r heap ann n
               (concat (Megane2.polygons ann)) res_img kps Hr);
      [|by eapply np_array_reshape_regular|done].
    rewrite (proj2 (np_array_keypoints_Ok kps _) (conj eq_refl Hne)).
    by rewrite bool_decide_eq_true_2.
Qed.

Lemma megane2_call_domain_witness :
  Megane2.Augment_call None (mkImage 4 2 0) 0%nat quad_heap
    = Ok (mkImage 4 2 0, 0%nat, quad_heap) ∧
  (∃ err, Megane2.Augment_call (Some same_keypoints) (mkImage 4 2 0) 0%nat segment_heap
            = Raise err) ∧
  (∃ res_img kps polys,
     shift_right (np_array (mkImage 4 2 0))
       (scale_to_point 4 2 <$> concat [quad]) = Ok (res_img, kps) ∧
     length (Megane2.keypoints_rows kps) = 4%nat ∧ length polys = 1%nat ∧
     Forall (λ p : polygon, length p = 4%nat) polys) ∧
  Megane2.Augment_call (Some same_keypoints) (mkImage 4 2 0) 0%nat empty_heap
    = Ok (mkImage 4 2 0, 0%nat, empty_heap).
Proof.
  split_and!.
  - apply (megane2_call_domain same_keypoints (mkImage 4 2 0) 0%nat quad_heap
             (Megane2.mkAnnotation [quad] ∅)). reflexivity.
  - destruct (megane2_call_domain same_keypoints (mkImage 4 2 0) 0%nat
                segment_heap (Megane2.mkAnnotation [segment] ∅) eq_refl)
      as (_ & _ & Hraise & _).
    apply (Hraise (mkArray 2 4 0)
             (Megane2.KArray (scale_to_point 4 2 <$> segment))).
    + reflexivity.
    + left. simpl. lia.
  - destruct (megane2_call_domain shift_right (mkImage 4 2 0) 0%nat
                quad_heap (Megane2.mkAnnotation [quad] ∅) eq_refl)
      as (_ & Hdef & _).
    destruct (Hdef (mkImage 4 2 0, 0%nat,
        {[ 0%nat := Megane2.mkAnnotation [quad_moved] ∅ ]}))
      as (res_img & kps & polys & HT & _ & Hlen & _ & _ & Hn & Hquads & _).
    + by_evaluation.
    + exists res_img, kps, polys. by split_and!.
  - destruct (megane2_call_domain same_keypoints (mkImage 4 2 0) 0%nat
                empty_heap (Megane2.mkAnnotation [] ∅) eq_refl)
      as (_ & _ & _ & Hret).
    apply (Hret (mkArray 2 4 0) (Megane2.KArray []) 4%nat).
    + constructor.
    + reflexivity.
    + discriminate.
    + reflexivity.
Defined.

(** * Further properties *)

(** ** [loop_over_loader] of src/trainer.py *)

Section loop_over_loader.
Import Trainer.
Context {B : Type}.
Implicit Types (loader : nat → list B) (bs : list B).

Lemma numbered_app step bs bs' :
  numbered step (bs ++ bs') =
  numbered step bs ++ numbered (step + Z.of_nat (length bs)) bs'.
Proof.
  unfold numbered. rewrite imap_app. f_equal.
  apply imap_ext. intros i b _. simpl. f_equal. lia.
Qed.

Lemma numbered_cons step b bs :
  numbered step (b :: bs) = (step + 1, b) :: numbered (step + 1) bs.
Proof.
  unfold numbered. simpl. rewrite Z.add_0_r. f_equal.
  apply imap_ext. intros i x _. simpl. f_equal. lia.
Qed.

Lemma numbered_fst step bs :
  (numbered step bs).*1 = seqZ (step + 1) (Z.of_nat (length bs)).
Proof.
  revert step. induction bs as [|b bs IH]; intros step; [done|].
  rewrite numbered_cons, fmap_cons, IH. simpl.
  rewrite (seqZ_cons (step + 1)) by lia. do 2 f_equal; lia.
Qed.

Lemma numbered_snd step bs : (numbered step bs).*2 = bs.
Proof.
  revert step. induction bs as [|b bs IH]; intros step; [done|].
  by rewrite numbered_cons, fmap_cons, IH.
Qed.

(** One iteration over the batches: it returns when it has yielded the
    steps that were left, and otherwise yields every batch. *)
Lemma for_batches_spec n bs step :
  for_batches n step bs =
  if decide (steps_left n step ≤ length bs)%nat
  then (numbered step (take (steps_left n step) bs),
        step + Z.of_nat (steps_left n step), true)
  else (numbered step bs, step + Z.of_nat (length bs), false).
Proof.
  revert step. induction bs as [|b bs IH]; intros step; simpl.
  - unfold steps_left. case_decide; [lia|]. do 2 f_equal. lia.
  - case_bool_decide as Hn.
    + assert (steps_left n step = 1%nat) as -> by (unfold steps_left; lia).
      rewrite decide_True by lia. simpl. rewrite numbered_cons. done.
    + rewrite IH.
      assert (steps_left n step = S (steps_left n (step + 1))) as ->
        by (unfold steps_left; lia).
      do 2 case_decide; try lia.
      * simpl. rewrite numbered_cons. do 2 f_equal. lia.
      * rewrite numbered_cons. do 2 f_equal. lia.
Qed.

Lemma batches_from_S loader k fuel :
  batches_from loader k (S fuel) = loader k ++ batches_from loader (S k) fuel.
Proof. done. Qed.

Lemma loop_from_spec n loader fuel k step :
  loop_from fuel loader n k step =
  if decide (steps_left n step ≤ length (batches_from loader k fuel))%nat
  then (numbered step (take (steps_left n step) (batches_from loader k fuel)),
        true)
  else (numbered step (batches_from loader k fuel), false).
Proof.
  revert k step. induction fuel as [|fuel IH]; intros k step.
  - simpl. rewrite decide_False; [done|].
    unfold batches_from, steps_left. simpl. lia.
  - rewrite batches_from_S, length_app. simpl.
    rewrite for_batches_spec.
    destruct (decide (steps_left n step ≤ length (loader k))%nat) as [Hle|Hgt].
    + rewrite decide_True by lia. rewrite take_app_le by done. done.
    + rewrite IH.
      assert (steps_left n (step + Z.of_nat (length (loader k)))
              = (steps_left n step - length (loader k))%nat) as ->
        by (unfold steps_left in *; lia).
      do 2 case_decide; try lia.
      * rewrite take_app_ge by lia. rewrite numbered_app. done.
      * rewrite numbered_app. done.
Qed.

(** What the generator has yielded after [fuel] iterations over the
    loader, and whether it has returned. *)
Lemma loop_over_loader_spec loader n fuel :
  loop_over_loader fuel loader n =
  if decide (steps_left n 0 ≤ length (batches_from loader 0 fuel))%nat
  then (numbered 0 (take (steps_left n 0) (batches_from loader 0 fuel)), true)
  else (numbered 0 (batches_from loader 0 fuel), false).
Proof. apply loop_from_spec. Qed.

Lemma batches_from_length loader k fuel :
  (∀ j, loader j ≠ []) → (fuel ≤ length (batches_from loader k fuel))%nat.
Proof.
  intros Hne. revert k. induction fuel as [|fuel IH]; intros k; [simpl; lia|].
  rewrite batches_from_S, length_app. specialize (IH (S k)).
  specialize (Hne k). destruct (loader k); [done|]. simpl. lia.
Qed.

Lemma batches_from_empty loader k fuel :
  (∀ j, loader j = []) → batches_from loader k fuel = [].
Proof.
  intros He. revert k. induction fuel as [|fuel IH]; intros k; [done|].
  by rewrite batches_from_S, He, IH.
Qed.

Lemma batches_from_const (l : list B) k fuel :
  batches_from (λ _, l) k fuel = concat (replicate fuel l).
Proof.
  revert k. induction fuel as [|fuel IH]; intros k; [done|].
  rewrite batches_from_S, IH. done.
Qed.

Lemma concat_replicate_lookup (l : list B) m i :
  (i < m * length l)%nat →
  concat (replicate m l) !! i = l !! (i mod length l)%nat.
Proof.
  revert i. induction m as [|m IH]; intros i Hi; [lia|]. simpl.
  destruct (decide (i < length l)%nat) as [Hlt|Hge].
  - rewrite lookup_app_l by done. by rewrite Nat.mod_small.
  - rewrite lookup_app_r by lia. rewrite IH by lia. f_equal.
    assert (length l ≠ 0)%nat by lia.
    replace i with ((i - length l) + 1 * length l)%nat at 2 by lia.
    by rewrite Nat.Div0.mod_add.
Qed.

(** X1. Asked for [n >= 1] steps over a loader that gives at least one
    batch at every iteration, the generator returns; it has then yielded
    exactly [n] pairs, numbered [1 .. n], whose batches are the first [n]
    batches of the successive iterations over the loader.  ([n]
    iterations are enough.) *)
Theorem loop_over_loader_yields_n_steps loader (n : Z) (fuel : nat) :
  1 ≤ n → (∀ k, loader k ≠ []) → (Z.to_nat n ≤ fuel)%nat →
  ∃ ys, loop_over_loader fuel loader n = (ys, true) ∧
    ys.*1 = seqZ 1 n ∧
    ys.*2 = take (Z.to_nat n) (concat (loader <$> seq 0 fuel)).
Proof.
  intros Hn Hne Hfuel. rewrite loop_over_loader_spec.
  pose proof (batches_from_length loader 0 fuel Hne) as Hlen.
  assert (steps_left n 0 = Z.to_nat n) as -> by (unfold steps_left; lia).
  rewrite decide_True by lia. eexists. split; [done|].
  rewrite numbered_fst, numbered_snd, length_take. split; [|done].
  f_equal. lia.
Qed.

(** X2. Asked for no step at all ([n <= 0]), the generator still yields
    one: the step count is compared with [n] only after the yield. *)
Theorem loop_over_loader_yields_once_for_no_steps loader (n : Z) (fuel : nat)
    (b : B) (bs : list B) :
  n ≤ 0 → loader 0%nat = b :: bs → (0 < fuel)%nat →
  loop_over_loader fuel loader n = ([(1, b)], true).
Proof.
  intros Hn Hl Hfuel. rewrite loop_over_loader_spec.
  assert (steps_left n 0 = 1%nat) as -> by (unfold steps_left; lia).
  destruct fuel as [|fuel]; [lia|]. rewrite batches_from_S, Hl.
  rewrite decide_True by (simpl; lia). done.
Qed.

(** X3. Over a loader without batches the generator neither yields nor
    returns, however many times it iterates over the loader: the loop
    [while True] never ends. *)
Theorem loop_over_loader_empty_never_returns loader (n : Z) (fuel : nat) :
  (∀ k, loader k = []) → loop_over_loader fuel loader n = ([], false).
Proof.
  intros He. rewrite loop_over_loader_spec, batches_from_empty by done.
  rewrite decide_False; [done|]. unfold steps_left. simpl. lia.
Qed.

(** X4. Over a list of batches the generator goes round the list: the
    [i]-th pair it yields (from 0) is step [i + 1] with the batch at
    position [i mod len(loader)]. *)
Theorem loop_over_loader_cycles (l : list B) (n : Z) (fuel i : nat) :
  l ≠ [] → (Z.to_nat n ≤ fuel)%nat → (i < Z.to_nat n)%nat →
  (loop_over_loader fuel (λ _, l) n).1 !! i =
    (λ b, (Z.of_nat i + 1, b)) <$> l !! (i mod length l)%nat.
Proof.
  intros Hl Hfuel Hi. rewrite loop_over_loader_spec.
  pose proof (batches_from_length (λ _, l) 0 fuel (λ _, Hl)) as Hlen.
  assert (steps_left n 0 = Z.to_nat n) as -> by (unfold steps_left; lia).
  rewrite decide_True by lia. simpl. unfold numbered.
  rewrite list_lookup_imap, lookup_take_lt by done.
  rewrite batches_from_const in *.
  rewrite concat_replicate_lookup.
  - destruct (l !! _); simpl; [|done]. do 2 f_equal. lia.
  - rewrite length_concat in Hlen. revert Hlen.
    rewrite fmap_replicate, sum_list_replicate. lia.
Qed.

(** X5. Whatever the loader and however long the generator runs: the
    steps it yields are numbered consecutively from 1, it never yields
    more than [max(n, 1)] of them, and it has returned exactly when it has
    yielded [max(n, 1)]. *)
Theorem loop_over_loader_never_overruns loader (n : Z) (fuel : nat) :
  let '(ys, returned) := loop_over_loader fuel loader n in
  ys.*1 = seqZ 1 (Z.of_nat (length ys)) ∧
  Z.of_nat (length ys) ≤ Z.max 1 n ∧
  (returned = true ↔ Z.of_nat (length ys) = Z.max 1 n).
Proof.
  rewrite loop_over_loader_spec. case_decide as Hd.
  - rewrite numbered_fst. unfold numbered. rewrite length_imap, length_take.
    unfold steps_left in *. split_and!; [f_equal; lia|lia|].
    split; [lia|done].
  - rewrite numbered_fst. unfold numbered. rewrite length_imap.
    unfold steps_left in *. split_and!; [done|lia|]. split; [done|lia].
Qed.

End loop_over_loader.

Lemma loop_over_loader_yields_n_steps_witness :
  ∃ ys, Trainer.loop_over_loader 3 two_batches 3 = (ys, true) ∧
    ys.*1 = seqZ 1 3 ∧
    ys.*2 = take (Z.to_nat 3) (concat (two_batches <$> seq 0 3)).
Proof.
  apply (loop_over_loader_yields_n_steps two_batches 3 3).
  - lia.
  - intros k. unfold two_batches. discriminate.
  - simpl. lia.
Defined.

Lemma loop_over_loader_yields_once_for_no_steps_witness :
  Trainer.loop_over_loader 1 two_batches 0 = ([(1, 10%nat)], true).
Proof.
  apply (loop_over_loader_yields_once_for_no_steps two_batches 0 1
           10%nat [20%nat]).
  - lia.
  - reflexivity.
  - lia.
Defined.

Lemma loop_over_loader_empty_never_returns_witness :
  Trainer.loop_over_loader 5 no_batches 3 = ([], false).
Proof.
  apply (loop_over_loader_empty_never_returns no_batches 3 5).
  intros k. reflexivity.
Defined.

Lemma loop_over_loader_cycles_witness :
  (Trainer.loop_over_loader 3 (λ _, [10; 20]%nat) 3).1 !! 2%nat =
    (λ b, (Z.of_nat 2 + 1, b)) <$> [10; 20]%nat !! (2 mod 2)%nat.
Proof.
  apply (loop_over_loader_cycles [10; 20]%nat 3 3 2).
  - discriminate.
  - simpl. lia.
  - simpl. lia.
Defined.

(** ** The combinators of eyeball/aug.py *)

Section aug.
Import Aug.
Context {Img R : Type}.
Variable random : R → Qc * R.
Variable randbelow : nat → R → nat * R.

(** [random.random()] lies in [0, 1); the index drawn by
    [random.choice] lies below the length of the sequence. *)
Hypothesis random_range : ∀ r, (0 ≤ (random r).1 ∧ (random r).1 < 1)%Qc.
Hypothesis randbelow_range :
  ∀ n r, (0 < n)%nat → ((randbelow n r).1 < n)%nat.

Implicit Types (f : Fn (Img:=Img) (R:=R)) (fs : list (Fn (Img:=Img) (R:=R))).

Lemma sometime_never f (p : Qc) image r :
  (p ≤ 0)%Qc → sometime random f p image r = Ok (image, (random r).2).
Proof using random_range.
  intros Hp. unfold sometime. pose proof (random_range r) as [H0 _].
  destruct (random r) as [x r']. simpl in *.
  rewrite decide_False; [done|].
  intros Hx. apply (Qclt_not_le _ _ Hx). by etrans.
Qed.

Lemma sometime_always f (p : Qc) image r :
  (1 ≤ p)%Qc → sometime random f p image r = f image (random r).2.
Proof using random_range.
  intros Hp. unfold sometime. pose proof (random_range r) as [_ H1].
  destruct (random r) as [x r']. simpl in *.
  rewrite decide_True; [done|]. eapply Qclt_le_trans; done.
Qed.

Lemma choice_member {A} (seq : list A) r :
  seq ≠ [] →
  ∃ x, x ∈ seq ∧
    choice randbelow seq r = Ok (x, (randbelow (length seq) r).2).
Proof using randbelow_range.
  intros Hne.
  assert (0 < length seq)%nat as Hpos by (destruct seq; [done|simpl; lia]).
  pose proof (randbelow_range (length seq) r Hpos) as Hi.
  destruct (lookup_lt_is_Some_2 seq _ Hi) as [x Hx].
  exists x. split; [by eapply list_elem_of_lookup_2|].
  unfold choice. destruct seq as [|x0 seq']; [done|].
  destruct (randbelow (length (x0 :: seq')) r) as [i r']. simpl in Hx.
  by rewrite (py_index_nat _ _ _ Hx).
Qed.

(** X6. [sometime(f, p)] with [p <= 0] never applies [f]: it returns the
    image it was given; with [p >= 1] it always applies [f].  Either way
    it draws one random number. *)
Theorem sometime_at_the_ends f (p : Qc) image r :
  ((p ≤ 0)%Qc → sometime random f p image r = Ok (image, (random r).2)) ∧
  ((1 ≤ p)%Qc → sometime random f p image r = f image (random r).2).
Proof using random_range.
  split; [apply sometime_never|apply sometime_always].
Qed.

(** X7. [random_apply(fs, p)] with [p <= 0] returns the image unchanged
    and calls none of [fs], so it does not raise whatever [fs] holds; it
    draws one random number for each of them. *)
Theorem random_apply_never fs (p : Qc) image r :
  (p ≤ 0)%Qc →
  random_apply random fs p image r = Ok (image, draws random (length fs) r).
Proof using random_range.
  intros Hp. unfold random_apply. revert r.
  induction fs as [|f fs IH]; intros r; [done|]. simpl.
  rewrite sometime_never by done. simpl. apply IH.
Qed.

(** X8. [random_apply(fs, p)] with [p >= 1] over functions that draw
    nothing and do not raise is their composition in the order of the
    list, the first of [fs] applied first. *)
Theorem random_apply_always (gs : list (Img → Img)) (p : Qc) image r :
  (1 ≤ p)%Qc →
  random_apply random (pure_fn <$> gs) p image r =
    Ok (foldl (λ im g, g im) image gs, draws random (length gs) r).
Proof using random_range.
  intros Hp. unfold random_apply. revert image r.
  induction gs as [|g gs IH]; intros image r; [done|]. simpl.
  rewrite sometime_always by done. simpl. apply IH.
Qed.

(** X9. [oneof(fs)] applies exactly one member of [fs] to the image, after
    one draw; built from an empty list it raises IndexError when it is
    called. *)
Theorem oneof_applies_one_member fs image r :
  match fs with
  | [] => oneof randbelow fs image r = Raise IndexError
  | _ => ∃ f, f ∈ fs ∧
           oneof randbelow fs image r = f image (randbelow (length fs) r).2
  end.
Proof using randbelow_range.
  destruct fs as [|f0 fs']; [done|].
  destruct (choice_member (f0 :: fs') r) as (f & Hf & Hc); [done|].
  exists f. split; [done|]. unfold oneof. by rewrite Hc.
Qed.

(** X10. [randomized(f, ps)] calls [f] once, with the image and one
    member of [ps]; with no parameter to choose from it raises
    IndexError when it is called, and [f] is not called. *)
Theorem randomized_draws_one_parameter {P}
    (f : Img → P → R → result (Img * R)) (ps : list P) image r :
  match ps with
  | [] => randomized randbelow f ps image r = Raise IndexError
  | _ => ∃ p, p ∈ ps ∧
           randomized randbelow f ps image r =
             f image p (randbelow (length ps) r).2
  end.
Proof using randbelow_range.
  destruct ps as [|p0 ps']; [done|].
  destruct (choice_member (p0 :: ps') r) as (p & Hp & Hc); [done|].
  exists p. split; [done|]. unfold randomized. by rewrite Hc.
Qed.

End aug.

Lemma half_random_range r :
  (0 ≤ (half_random r).1 ∧ (half_random r).1 < 1)%Qc.
Proof. split; by_evaluation. Qed.

Lemma round_robin_range n r :
  (0 < n)%nat → ((round_robin n r).1 < n)%nat.
Proof. intros Hn. simpl. apply Nat.mod_upper_bound. lia. Qed.

Lemma sometime_at_the_ends_witness :
  Aug.sometime half_random brighter 0 5%nat 0%nat = Ok (5%nat, 1%nat) ∧
  Aug.sometime half_random brighter 1 5%nat 0%nat = Ok (6%nat, 1%nat).
Proof.
  split.
  - apply (sometime_at_the_ends half_random half_random_range brighter 0
             5%nat 0%nat). by_evaluation.
  - apply (sometime_at_the_ends half_random half_random_range brighter 1
             5%nat 0%nat). by_evaluation.
Defined.

Lemma random_apply_never_witness :
  Aug.random_apply half_random [brighter; doubled] 0 5%nat 0%nat
    = Ok (5%nat, 2%nat).
Proof.
  apply (random_apply_never half_random half_random_range
           [brighter; doubled] 0 5%nat 0%nat).
  by_evaluation.
Defined.

Lemma random_apply_always_witness :
  Aug.random_apply half_random (Aug.pure_fn <$> [S; Nat.mul 2]) 1 5%nat 0%nat
    = Ok (12%nat, 2%nat).
Proof.
  apply (random_apply_always half_random half_random_range
           [S; Nat.mul 2] 1 5%nat 0%nat).
  by_evaluation.
Defined.

Lemma oneof_applies_one_member_witness :
  ∃ f, f ∈ [brighter; doubled] ∧
    Aug.oneof round_robin [brighter; doubled] 5%nat 1%nat = f 5%nat 2%nat.
Proof.
  apply (oneof_applies_one_member round_robin round_robin_range
           [brighter; doubled] 5%nat 1%nat).
Defined.

Lemma randomized_draws_one_parameter_witness :
  ∃ p, p ∈ [3; 4]%nat ∧
    Aug.randomized round_robin (λ image p r, Ok ((image + p)%nat, r))
      [3; 4]%nat 5%nat 1%nat = Ok ((5 + p)%nat, 2%nat).
Proof.
  apply (randomized_draws_one_parameter round_robin round_robin_range
           (λ image p r, Ok ((image + p)%nat, r)) [3; 4]%nat 5%nat 1%nat).
Defined.

(** ** [save_args] of megane/utils/misc.py *)

Section save_args.
Import Misc.
Context {V : Type}.
Implicit Types (ns attrs : gmap string V).

(** The loop [for k, v in namespace.items(): setattr(self, k, v)]. *)
Lemma setattr_all ns attrs k :
  map_fold (λ k v attrs, <[k := v]> attrs) attrs ns !! k =
  match ns !! k with Some v => Some v | None => attrs !! k end.
Proof.
  induction ns as [|k' v ns Hk' Hfold IH] using map_first_key_ind.
  - by rewrite map_fold_empty, lookup_empty.
  - rewrite map_fold_insert_first_key by done.
    destruct (decide (k = k')) as [->|Hne].
    + by rewrite !lookup_insert_eq.
    + by rewrite !lookup_insert_ne.
Qed.

(** X11. [save_args()] raises KeyError('self') exactly when the calling
    frame has no local variable [self]; otherwise it returns, whether or
    not the frame has a [__class__] cell. *)
Theorem save_args_needs_self ns attrs :
  match ns !! "self" with
  | None => save_args ns attrs = inl (KeyError "self")
  | Some _ => ∃ attrs', save_args ns attrs = inr attrs'
  end.
Proof.
  unfold save_args, pop. destruct (ns !! "self"); [|done].
  destruct (delete "self" ns !! "__class__"); eauto.
Qed.

(** X12. After [save_args()] every local variable of the caller other
    than [self] and [__class__] is an attribute of the instance, with the
    variable's value; the attributes [self] and [__class__], and those
    that are not named by a local variable, are as they were. *)
Theorem save_args_sets_locals ns attrs attrs' (k : string) :
  save_args ns attrs = inr attrs' →
  attrs' !! k =
    if decide (k = "self" ∨ k = "__class__") then attrs !! k
    else match ns !! k with Some v => Some v | None => attrs !! k end.
Proof.
  unfold save_args, pop. destruct (ns !! "self"); [|done].
  destruct (delete "self" ns !! "__class__") eqn:Hc;
    intros [= <-]; rewrite setattr_all.
  - case_decide as Hk.
    + destruct Hk as [->| ->].
      * rewrite lookup_delete_ne, lookup_delete_eq by done. done.
      * by rewrite lookup_delete_eq.
    + rewrite !lookup_delete_ne by naive_solver. done.
  - case_decide as Hk.
    + destruct Hk as [->| ->].
      * by rewrite lookup_delete_eq.
      * by rewrite Hc.
    + rewrite !lookup_delete_ne by naive_solver. done.
Qed.

End save_args.

Lemma save_args_sets_locals_witness :
  (<["a" := 10]> (<["b" := 20]> (∅ : gmap string Z))) !! "a" = Some 10 ∧
  Misc.save_args init_locals ∅ = inr (<["a" := 10]> (<["b" := 20]> ∅)).
Proof.
  assert (Misc.save_args init_locals ∅
          = inr (<["a" := 10]> (<["b" := 20]> (∅ : gmap string Z)))) as Hs
    by (vm_compute; reflexivity).
  split; [|exact Hs].
  apply (save_args_sets_locals init_locals ∅ _ "a" Hs).
Defined.

(** ** More on [Augment] of megane2/augments.py *)

Section megane2_more.
Import Megane2.

(** X13. [Augment.from_string] knows four names and raises KeyError on
    any other string (the names are case sensitive): "default" and "yes"
    give the default transform; "none" and "no" give an Augment without
    transform, whose call returns the image and the annotation it was
    given. *)
Theorem from_string_names (default_augment : Transform) (augment : string) :
  match from_string default_augment augment with
  | inr transform =>
      (augment = "default" ∨ augment = "yes") ∧
        transform = Some default_augment ∨
      (augment = "none" ∨ augment = "no") ∧ transform = None ∧
        ∀ img annotation heap,
          Augment_call transform img annotation heap =
            Ok (img, annotation, heap)
  | inl e =>
      e = KeyError augment ∧ augment ∉ ["default"; "none"; "yes"; "no"]
  end.
Proof.
  unfold from_string.
  destruct (decide (augment = "default")) as [->|H1]; [left; by split; [left|]|].
  destruct (decide (augment = "none")) as [->|H2];
    [right; by split_and!; [left| |]|].
  destruct (decide (augment = "yes")) as [->|H3]; [left; by split; [right|]|].
  destruct (decide (augment = "no")) as [->|H4];
    [right; by split_and!; [right| |]|].
  rewrite !lookup_insert_ne, lookup_empty by done.
  split; [done|]. rewrite !not_elem_of_cons. split_and!; [done..|].
  apply not_elem_of_nil.
Qed.

Lemma np_array_reshape_ragged (ps : list polygon) (p p' : polygon) :
  p ∈ ps → p' ∈ ps → length p ≠ length p' →
  np_array_reshape ps = Raise ValueError.
Proof.
  intros Hp Hp' Hne. destruct (np_array_reshape ps) as [e|[n rows]] eqn:Hr.
  - unfold np_array_reshape in Hr. destruct ps; [done|].
    destruct (forallb _ _); congruence.
  - apply np_array_reshape_inv in Hr as (_ & _ & Hreg).
    destruct Hne. by apply Hreg.
Qed.

Lemma chunks4_of_quads (ps : list polygon) :
  Forall (λ p : polygon, length p = 4%nat) ps →
  chunks4 (length ps) (concat ps) = ps.
Proof.
  induction 1 as [|p ps Hp _ IH]; [done|]. simpl.
  rewrite take_app_length' by done. rewrite drop_app_length' by done.
  by rewrite IH.
Qed.

(** X14. On an annotation without polygons the outcome of the call is
    decided by what the transform returns for the empty array of
    keypoints it is given: an array without rows (such as the one it was
    given) makes the call return, with the returned image and an
    annotation that still has no polygons; an empty list makes it raise
    IndexError; and any keypoints at all make it raise ValueError. *)
Theorem megane2_call_without_polygons (T : Transform) img
    (r : nat) (heap : gmap nat Annotation) ann res_img kps :
  heap !! r = Some ann → polygons ann = [] →
  T (np_array img) [] = Ok (res_img, kps) →
  Augment_call (Some T) img r heap =
    match kps with
    | KArray [] =>
        Ok (fromarray res_img, r, <[r := mkAnnotation [] (others ann)]> heap)
    | KList [] => Raise IndexError
    | _ => Raise ValueError
    end.
Proof.
  intros Hr Hnil HT.
  rewrite (call_Some_eq T img r heap ann 0 [] res_img kps Hr);
    [|by rewrite Hnil|done].
  by destruct kps as [[|kp rows]|[|kp items]].
Qed.

(** X15. Round trip: with a transform that returns the image and the
    keypoints it was given, the call on an annotation of quadrilaterals
    (at least one) returns the same image and leaves the annotation as it
    was; scaling to pixels and back loses nothing. *)
Theorem megane2_call_identity_roundtrip img (r : nat)
    (heap : gmap nat Annotation) ann :
  heap !! r = Some ann → polygons ann ≠ [] →
  Forall (λ p : polygon, length p = 4%nat) (polygons ann) →
  Augment_call (Some same_keypoints) img r heap = Ok (img, r, heap).
Proof.
  intros Hr Hne Hquads.
  rewrite (call_Some_eq same_keypoints img r heap ann (length (polygons ann))
             (concat (polygons ann)) (np_array img)
             (KArray (scale_to_point (im_width img) (im_height img)
                        <$> concat (polygons ann))) Hr);
    [|by eapply np_array_reshape_regular|done].
  assert (length (concat (polygons ann)) = (4 * length (polygons ann))%nat)
    as Hlen.
  { rewrite (concat_length_regular _ 4); [lia|].
    intros p Hp. rewrite Forall_forall in Hquads. by apply Hquads. }
  cbn [np_array_keypoints].
  rewrite bool_decide_eq_true_2 by by rewrite length_fmap.
  rewrite fromarray_np_array. do 2 f_equal.
  rewrite <- list_fmap_compose.
  rewrite (list_fmap_ext _ id (concat (polygons ann)));
    [|intros ? p _; apply scale_from_to_point].
  rewrite list_fmap_id, chunks4_of_quads by done.
  destruct ann as [ps os]. simpl. by apply insert_id.
Qed.

(** X16. Polygons that do not all have the same number of points make
    the call raise ValueError before the transform is called, whatever
    the transform. *)
Theorem megane2_call_ragged_polygons (T : Transform) img (r : nat)
    (heap : gmap nat Annotation) ann (p p' : polygon) :
  heap !! r = Some ann →
  p ∈ polygons ann → p' ∈ polygons ann → length p ≠ length p' →
  Augment_call (Some T) img r heap = Raise ValueError.
Proof.
  intros Hr Hp Hp' Hne. unfold Augment_call, load. rewrite Hr. simpl.
  by rewrite (np_array_reshape_ragged _ _ _ Hp Hp' Hne).
Qed.

End megane2_more.

Lemma megane2_call_without_polygons_witness :
  Megane2.Augment_call (Some same_keypoints) (mkImage 4 2 0) 0%nat empty_heap
    = Ok (mkImage 4 2 0, 0%nat, empty_heap) ∧
  Megane2.Augment_call (Some shift_right) (mkImage 4 2 0) 0%nat empty_heap
    = Raise IndexError.
Proof.
  split.
  - apply (megane2_call_without_polygons same_keypoints (mkImage 4 2 0)
             0%nat empty_heap (Megane2.mkAnnotation [] ∅) (mkArray 2 4 0)
             (Megane2.KArray []));
      reflexivity.
  - apply (megane2_call_without_polygons shift_right (mkImage 4 2 0)
             0%nat empty_heap (Megane2.mkAnnotation [] ∅) (mkArray 2 4 0)
             (Megane2.KList []));
      reflexivity.
Defined.

Lemma megane2_call_identity_roundtrip_witness :
  Megane2.Augment_call (Some same_keypoints) (mkImage 4 2 0) 0%nat quad_heap
    = Ok (mkImage 4 2 0, 0%nat, quad_heap).
Proof.
  apply (megane2_call_identity_roundtrip (mkImage 4 2 0) 0%nat quad_heap
           (Megane2.mkAnnotation [quad] ∅)).
  - reflexivity.
  - discriminate.
  - repeat constructor.
Defined.

Lemma megane2_call_ragged_polygons_witness :
  Megane2.Augment_call (Some same_keypoints) (mkImage 4 2 0) 0%nat ragged_heap
    = Raise ValueError.
Proof.
  apply (megane2_call_ragged_polygons same_keypoints (mkImage 4 2 0) 0%nat
           ragged_heap (Megane2.mkAnnotation [quad; segment] ∅) quad segment).
  - reflexivity.
  - simpl. apply elem_of_cons. by left.
  - simpl. apply elem_of_cons. right. apply elem_of_cons. by left.
  - simpl. lia.
Defined.

(** ** More on [decode] of megane/augment.py *)

Lemma select_none {A} (l : list A) n : select l (replicate n false) = [].
Proof.
  unfold select. rewrite filter_none. { done. }
  intros [x b] Hin. apply elem_of_zip_r in Hin.
  apply elem_of_replicate in Hin as [Hb _]. simpl in *. rewrite Hb. tauto.
Qed.

Lemma zip_take_both {A B} (l : list A) (k : list B) :
  zip (take (length k) l) (take (length l) k) = zip l k.
Proof.
  revert k. induction l as [|x l IH]; intros [|y k]; simpl; try done.
  by rewrite IH.
Qed.

Section augment_decode_more.
Import Augment.

Lemma group_loop_Ok_range boxes σ items σ' :
  group_loop boxes σ items = Ok σ' →
  Forall (λ m, - Z.of_nat (length boxes) ≤ m < Z.of_nat (length boxes))
    items.*1.
Proof.
  revert σ. induction items as [|[mask xy] items IH]; intros σ; simpl.
  - intros _. constructor.
  - unfold append_at.
    destruct (py_index boxes mask) as [e|r] eqn:Hr; [done|]. simpl.
    intros Hloop. constructor; [by eapply py_index_Ok_range|by eapply IH].
Qed.

Lemma group_loop_Raise boxes σ items e :
  group_loop boxes σ items = Raise e → e = IndexError.
Proof.
  revert σ. induction items as [|[mask xy] items IH]; intros σ; simpl; [done|].
  unfold append_at.
  destruct (py_index boxes mask) as [e'|r] eqn:Hr; simpl.
  - intros [= <-]. by eapply py_index_Raise.
  - apply IH.
Qed.

(** X17. [decode] returns exactly when every entry of [box_mapping] that
    is paired with a keypoint is an index of [sample.boxes], negative
    indices from [-len(sample.boxes)] included; otherwise it raises
    IndexError, and nothing else. *)
Theorem augment_decode_returns_iff (s : Sample) (outputs : Dict) :
  let n := Z.of_nat (length (boxes s)) in
  let masks := (zip (d_box_mapping outputs) (d_keypoints outputs)).*1 in
  match decode s outputs with
  | inr _ => Forall (λ m, - n ≤ m < n) masks
  | inl e => e = IndexError ∧ ¬ Forall (λ m, - n ≤ m < n) masks
  end.
Proof.
  intros n masks. destruct (decode s outputs) as [e|s'] eqn:Hd.
  - split.
    + revert Hd. unfold decode, size, repeat_empty_list, new_list.
      destruct (group_loop _ _ _) as [e'|σ] eqn:Hσ; [|done].
      intros [= <-]. by eapply group_loop_Raise.
    + intros Hall. destruct (augment_decode_returns s outputs Hall).
      congruence.
  - revert Hd. unfold decode, size, repeat_empty_list, new_list.
    destruct (group_loop _ _ _) as [e'|σ] eqn:Hσ; [done|]. intros _.
    apply group_loop_Ok_range in Hσ. by rewrite length_replicate in Hσ.
Qed.

(** X18. For a Sample with one class (and one score, if any) per box,
    [decode] keeps all or nothing.  With more than two keypoints in the
    output it returns as many boxes as the Sample has, every one of them
    the list of all the keypoints scaled by the size of the Sample's
    image, with the Sample's classes and scores; with two keypoints or
    fewer it returns no box, no class and no score. *)
Theorem augment_decode_all_or_nothing (s : Sample) (outputs : Dict)
    (s' : Sample) :
  sample_wf s → decode s outputs = Ok s' →
  let all := (zip (d_box_mapping outputs) (d_keypoints outputs)).*2 in
  let box := normalize_polygon all (im_width (image s)) (im_height (image s)) in
  image s' = fromarray (d_image outputs) ∧
  if decide (2 < length all)%nat
  then boxes s' = replicate (length (boxes s)) box ∧
       classes s' = classes s ∧ scores s' = scores s
  else boxes s' = [] ∧ classes s' = [] ∧
       scores s' = (λ _, []) <$> scores s.
Proof.
  intros [Hc Hsc] ->%augment_decode_shared. simpl. split; [done|].
  case_decide as Hbig.
  - rewrite bool_decide_eq_true_2 by done.
    rewrite !select_all by (done || by rewrite length_replicate).
    split_and!; [done..|]. destruct (scores s) as [sc|]; [|done]. simpl.
    by rewrite select_all by by apply Hsc.
  - rewrite bool_decide_eq_false_2 by done. rewrite !select_none.
    split_and!; [done..|]. destruct (scores s) as [sc|]; [|done]. simpl.
    by rewrite select_none.
Qed.

(** X19. [decode] pairs keypoints and owner indices with [zip]: when the
    two lists differ in length, the surplus of the longer one is ignored
    without an error. *)
Theorem augment_decode_zip_truncates (s : Sample) img
    (keypoints : list point) (box_mapping : list Z) :
  decode s (mkDict img keypoints box_mapping) =
  decode s (mkDict img (take (length box_mapping) keypoints)
              (take (length keypoints) box_mapping)).
Proof.
  unfold decode. simpl. by rewrite zip_take_both.
Qed.

(** X20. Round trip: a Sample with exactly one box, of more than two
    points, and one class (and one score, if any) comes back from
    [encode] and [decode] as it was. *)
Theorem augment_roundtrip_single_box (s : Sample) (p : polygon) :
  sample_wf s → boxes s = [p] → (2 < length p)%nat →
  decode s (encode s) = Ok s.
Proof.
  intros [Hc Hsc] Hb Hp.
  destruct (augment_decode_returns s (encode s)) as [s' Hd].
  { rewrite Augment_encode_eq. simpl. rewrite Forall_forall.
    intros m Hm. apply list_elem_of_fmap in Hm as ([m' xy] & -> & Hin).
    apply elem_of_zip_l in Hin. apply owners_in_range in Hin. simpl. lia. }
  rewrite Hd. f_equal. apply augment_decode_shared in Hd as ->.
  rewrite Augment_encode_eq. simpl. rewrite fromarray_np_array.
  destruct s as [im bs cs sc]. simpl in *. subst bs. simpl.
  rewrite !app_nil_r.
  rewrite snd_zip by by rewrite length_replicate, scale_to_length.
  unfold normalize_polygon. rewrite scale_from_to.
  rewrite scale_to_length, bool_decide_eq_true_2 by done.
  change [true] with (replicate 1 true).
  rewrite !select_all by done. f_equal.
  destruct sc as [sc|]; [|done]. simpl.
  change [true] with (replicate 1 true).
  by rewrite select_all by by apply Hsc.
Qed.

End augment_decode_more.

Lemma augment_decode_all_or_nothing_witness :
  Augment.decode two_triangles (Augment.encode two_triangles)
    = Ok (mkSample (mkImage 4 2 0) [tri_a ++ tri_b; tri_a ++ tri_b] [7; 8]
            (Some [q 9 10; q 4 5])) ∧
  boxes (mkSample (mkImage 4 2 0) [tri_a ++ tri_b; tri_a ++ tri_b] [7; 8]
           (Some [q 9 10; q 4 5]))
    = replicate 2 (normalize_polygon (scale_to (tri_a ++ tri_b) 4 2) 4 2).
Proof.
  assert (Augment.decode two_triangles (Augment.encode two_triangles)
    = Ok (mkSample (mkImage 4 2 0) [tri_a ++ tri_b; tri_a ++ tri_b] [7; 8]
            (Some [q 9 10; q 4 5]))) as Hd by by_evaluation.
  split; [exact Hd|].
  assert (sample_wf two_triangles) as Hwf.
  { split; [reflexivity|]. intros sc [= <-]. reflexivity. }
  destruct (augment_decode_all_or_nothing two_triangles
              (Augment.encode two_triangles) _ Hwf Hd) as [_ Hall].
  exact (proj1 Hall).
Defined.

Lemma augment_roundtrip_single_box_witness :
  Augment.decode corner_triangle (Augment.encode corner_triangle)
    = Ok corner_triangle.
Proof.
  apply (augment_roundtrip_single_box corner_triangle
           [(q 0 1, q 0 1); (q 1 1, q 0 1); (q 1 1, q 1 1)]).
  - split; [reflexivity|]. intros sc [=].
  - reflexivity.
  - simpl. lia.
Defined.

(** ** More on [decode] and [encode] of megane/augment/albumen.py *)

Lemma points_of_subset masks xy i pt :
  pt ∈ points_of masks xy i → pt ∈ xy.
Proof.
  unfold points_of. intros ([m pt'] & -> & Hin)%list_elem_of_fmap.
  apply list_elem_of_filter in Hin as [_ Hin]. by apply elem_of_zip_r in Hin.
Qed.

Lemma select_cons {A} (x : A) xs (b : bool) keeps :
  select (x :: xs) (b :: keeps) =
  if b then x :: select xs keeps else select xs keeps.
Proof. unfold select. simpl. rewrite filter_cons. by destruct b. Qed.

(** Box [i] owns a keypoint exactly when its polygon has a point. *)
Lemma owners_elem (polys : list polygon) (i : nat) :
  Z.of_nat i ∈ concat (imap (λ i p, replicate (length p) (Z.of_nat i)) polys) ↔
  ∃ p, polys !! i = Some p ∧ p ≠ [].
Proof.
  split.
  - intros Hx. apply list_elem_of_In, in_concat in Hx as (l & Hl & Hx).
    apply list_elem_of_In in Hl, Hx.
    apply list_elem_of_lookup in Hl as [j Hl].
    rewrite list_lookup_imap in Hl.
    destruct (polys !! j) as [p|] eqn:Hp; [|done]. simpl in Hl.
    injection Hl as <-. apply elem_of_replicate in Hx as [Hij Hlen].
    assert (i = j) as -> by lia. exists p. split; [done|].
    by destruct p.
  - intros (p & Hp & Hne).
    assert (0 < length p)%nat as Hlen by (destruct p; [done|simpl; lia]).
    pose proof (owners_lookup_offset polys 0 _ p 0 Hp Hlen) as Hk.
    by apply list_elem_of_lookup_2 in Hk.
Qed.

Section albumen_more.
Import Albumen.

(** X21. [decode] is defined exactly when there is a keypoint for every
    entry of [box_mapping] and every owner index that is left with more
    than two keypoints is an index of [classes] (negative indices
    included).  Then it returns one box for each such owner, in order of
    first occurrence, made of that owner's keypoints in their order,
    scaled by the size of the returned image, with the class at that
    index, and no scores; keypoints beyond the length of [box_mapping]
    are ignored.  In every other case it raises IndexError. *)
Theorem albumen_decode_exact (outputs : Dict) :
  let masks := d_box_mapping outputs in
  let xy := d_keypoints outputs in
  let cls := d_classes outputs in
  let img := fromarray (d_image outputs) in
  let defined :=
    (length masks ≤ length xy)%nat ∧
    Forall (λ i, - Z.of_nat (length cls) ≤ i < Z.of_nat (length cls))
      (surviving_owners masks) in
  (defined →
   ∃ cs,
     decode outputs =
       Ok (mkSample img
             ((λ i, scale_from (points_of masks xy i)
                      (im_width img) (im_height img))
                <$> surviving_owners masks)
             cs None) ∧
     Forall2 (λ i c, py_index cls i = Ok c) (surviving_owners masks) cs) ∧
  (¬ defined → decode outputs = Raise IndexError).
Proof.
  intros masks xy cls img defined. split.
  - intros [Hlen Hcls].
    destruct (decode_loop_by_surviving_owner xy cls (im_width img)
                (im_height img) masks (owners_in_order masks) ([], []) Hlen)
      as (cs & Hloop & Hcs).
    { intros k Hk Hbig. apply (proj1 (Forall_forall _ _) Hcls).
      by apply list_elem_of_filter. }
    exists cs. split; [|done].
    apply decode_loop_Ok. rewrite groupby_spec, enumerate_snd. exact Hloop.
  - intros Hnot. destruct (decode outputs) as [e|s'] eqn:Hd.
    + f_equal. by eapply albumen_decode_never_fails_its_assertion.
    + destruct Hnot. by eapply albumen_decode_Ok_conditions.
Qed.

(** X22. [decode] invents nothing: every box it returns has more than
    two points, every point of a returned box is one of the output's
    keypoints scaled by the size of the returned image, and every
    returned class is one of the output's classes. *)
Theorem albumen_decode_invents_nothing (outputs : Dict) (s' : Sample) :
  decode outputs = Ok s' →
  let img := fromarray (d_image outputs) in
  Forall (λ box : polygon,
            (2 < length box)%nat ∧
            Forall (λ pt, pt ∈ scale_from (d_keypoints outputs)
                                 (im_width img) (im_height img)) box)
    (boxes s') ∧
  Forall (λ c, c ∈ d_classes outputs) (classes s').
Proof.
  intros Hd img.
  pose proof (albumen_decode_Ok_conditions outputs s' Hd) as [Hlen Hcls].
  destruct (decode_loop_by_surviving_owner (d_keypoints outputs)
              (d_classes outputs) (im_width img) (im_height img)
              (d_box_mapping outputs) (owners_in_order (d_box_mapping outputs))
              ([], []) Hlen)
    as (cs & Hloop & Hcs).
  { intros k Hk Hbig. apply (proj1 (Forall_forall _ _) Hcls).
    by apply list_elem_of_filter. }
  apply decode_Ok_inv in Hd as (_ & _ & _ & Hloop').
  rewrite groupby_spec, enumerate_snd in Hloop'.
  change (arr_cols (d_image outputs)) with (im_width img) in Hloop'.
  change (arr_rows (d_image outputs)) with (im_height img) in Hloop'.
  rewrite Hloop in Hloop'. simpl in Hloop'. injection Hloop' as <- <-.
  split.
  - apply Forall_fmap, Forall_forall. intros k Hk. simpl.
    apply list_elem_of_filter in Hk as [Hbig _].
    rewrite scale_from_length, points_of_length by done.
    split; [done|]. apply Forall_forall. intros pt Hpt.
    unfold scale_from in *.
    apply list_elem_of_fmap in Hpt as (pt' & -> & Hpt').
    apply list_elem_of_fmap_2. by eapply points_of_subset.
  - clear Hloop. induction Hcs as [|k c ks cs Hc _ IH]; constructor; [|done].
    by eapply py_index_Ok.
Qed.

(** X23. For a Sample with one class per box, [encode] returns exactly
    when the last polygon has a point.  It raises ValueError when no
    polygon has a point (in particular without boxes), and
    AssertionError when some polygon has a point and the last one has
    none. *)
Theorem albumen_encode_outcomes (s : Sample) :
  length (classes s) = length (boxes s) →
  match encode s with
  | inr _ => ∃ p, last (boxes s) = Some p ∧ p ≠ []
  | inl e =>
      e = ValueError ∧ concat (boxes s) = [] ∨
      e = AssertionError ∧ concat (boxes s) ≠ [] ∧ last (boxes s) = Some []
  end.
Proof.
  intros Hlen. rewrite Albumen_encode_eq. cbv zeta.
  set (masks := concat (imap _ (boxes s))).
  destruct (py_max masks) as [e|m] eqn:Hmax.
  - simpl. left. destruct masks eqn:Hm; [|done]. injection Hmax as <-.
    split; [done|]. apply (f_equal length) in Hm. subst masks.
    rewrite owners_length_0 in Hm. by apply nil_length_inv.
  - simpl. apply py_max_spec in Hmax as [Hin Hle].
    pose proof (owners_in_range _ _ Hin) as Hm.
    assert (concat (boxes s) ≠ []) as Hpts.
    { intros Hnil. apply (f_equal length) in Hnil.
      rewrite <- (owners_length_0 (boxes s)) in Hnil.
      apply nil_length_inv in Hnil. fold masks in Hnil. rewrite Hnil in Hin.
      by apply elem_of_nil in Hin. }
    rewrite last_lookup.
    destruct (lookup_lt_is_Some_2 (boxes s) (pred (length (boxes s))))
      as [p Hp]; [lia|].
    case_bool_decide as Hassert.
    + exists p. split; [done|].
      replace m with (Z.of_nat (pred (length (boxes s)))) in Hin by lia.
      apply owners_elem in Hin as (p' & Hp' & Hne). congruence.
    + right. split_and!; [done..|]. rewrite Hp. f_equal.
      destruct p as [|pt p]; [done|]. exfalso. apply Hassert.
      assert (Z.of_nat (pred (length (boxes s))) ∈ masks) as Hlast.
      { apply owners_elem. by exists (pt :: p). }
      apply Hle in Hlast. lia.
Qed.

Lemma groupby_from_any polys i off (G : list (Z * list (nat * Z))) :
  (∀ k, k ∈ G.*1 → k < Z.of_nat i) →
  foldl (λ d item, dict_append item.2 item d) G
    (imap (λ j m, ((off + j)%nat, m))
       (concat (imap (λ i' p, replicate (length p) (Z.of_nat (i + i'))) polys)))
  = G ++ groups_of i off polys.
Proof.
  revert i off G.
  induction polys as [|p polys IH]; intros i off G HG.
  - simpl. by rewrite app_nil_r.
  - rewrite imap_cons. cbn [concat].
    rewrite imap_app, foldl_app, length_replicate, imap_replicate.
    rewrite Nat.add_0_r.
    assert (Z.of_nat i ∉ G.*1) as Hfresh.
    { intros Hin%HG. lia. }
    destruct p as [|pt p].
    + cbn [length seq fmap list_fmap foldl groups_of].
      rewrite (imap_ext _ (λ j m, ((off + j)%nat, m)))
        by (intros; simpl; f_equal; lia).
      rewrite (imap_ext (_ ∘ S) (λ i' p, replicate (length p) (Z.of_nat (S i + i'))))
        by (intros; simpl; do 2 f_equal; lia).
      apply IH. intros k Hk%HG. lia.
    + cbn [length seq fmap list_fmap foldl snd groups_of].
      rewrite dict_append_fresh by done.
      rewrite (foldl_same_key (λ item : nat * Z, item.2)); [|done|].
      2:{ apply Forall_fmap, Forall_forall. done. }
      rewrite (imap_ext _ (λ j m, ((off + S (length p) + j)%nat, m)))
        by (intros; simpl; f_equal; lia).
      rewrite (imap_ext (_ ∘ S) (λ i' p, replicate (length p) (Z.of_nat (S i + i'))))
        by (intros; simpl; do 2 f_equal; lia).
      rewrite IH; [by rewrite <- app_assoc|].
      intros k. rewrite fmap_app. intros [Hk%HG|Hk]%elem_of_app; [lia|].
      apply list_elem_of_singleton in Hk. simpl in Hk. lia.
Qed.

Lemma groupby_encoded_any (polys : list polygon) :
  groupby (λ i : nat * Z, i.2)
    (enumerate (concat (imap (λ i p, replicate (length p) (Z.of_nat i)) polys)))
  = groups_of 0 0 polys.
Proof.
  unfold groupby, enumerate.
  apply (groupby_from_any polys 0 0 []). by intros k ?%elem_of_nil.
Qed.

Lemma decode_loop_groups_any w h (polys : list polygon) :
  ∀ (pre : list point) (cpre cs : list Z) (acc : list polygon * list Z),
  length cs = length polys →
  decode_loop (pre ++ concat ((λ p, scale_to p w h) <$> polys)) (cpre ++ cs)
    w h acc (groups_of (length cpre) (length pre) polys)
  = Ok (acc.1 ++ filter (λ p : polygon, (2 < length p)%nat) polys,
        acc.2 ++ select cs
                   ((λ p : polygon, bool_decide (2 < length p)%nat) <$> polys)).
Proof.
  induction polys as [|p polys IH]; intros pre cpre cs acc Hlen.
  - destruct cs; [|done]. simpl. rewrite !app_nil_r. by destruct acc.
  - destruct cs as [|c cs]; [done|]. injection Hlen as Hlen.
    rewrite !fmap_cons, select_cons, filter_cons. cbn [concat].
    assert (∀ acc',
      decode_loop (pre ++ scale_to p w h ++
                     concat ((λ p, scale_to p w h) <$> polys))
        (cpre ++ c :: cs) w h acc'
        (groups_of (S (length cpre)) (length pre + length p) polys) =
      Ok (acc'.1 ++ filter (λ p : polygon, (2 < length p)%nat) polys,
          acc'.2 ++ select cs
             ((λ p : polygon, bool_decide (2 < length p)%nat) <$> polys)))
      as Hrest.
    { intros acc'.
      replace (S (length cpre)) with (length (cpre ++ [c]))
        by (rewrite length_app; simpl; lia).
      replace (length pre + length p)%nat with (length (pre ++ scale_to p w h))
        by (by rewrite length_app, scale_to_length).
      rewrite (app_assoc pre), (cons_middle c cpre cs), (app_assoc cpre).
      by apply IH. }
    destruct p as [|pt p].
    + cbn [groups_of]. rewrite decide_False by (simpl; lia).
      rewrite bool_decide_eq_false_2 by (simpl; lia).
      specialize (Hrest acc). by rewrite Nat.add_0_r in Hrest.
    + cbn [groups_of decode_loop]. unfold decode_step.
      rewrite <- (scale_to_length (pt :: p) w h) at 1.
      rewrite (traverse_group _ pre (scale_to (pt :: p) w h)
                 (concat ((λ p, scale_to p w h) <$> polys))) by done.
      cbn [mbind result_bind]. rewrite scale_from_to.
      case_bool_decide as Hbig.
      * rewrite (py_index_nat _ _ c) by (by rewrite lookup_app_r, Nat.sub_diag).
        cbn [mbind result_bind]. rewrite Hrest. rewrite decide_True by done.
        simpl. by rewrite <- !app_assoc.
      * cbn [mbind result_bind]. rewrite Hrest.
        by rewrite decide_False by done.
Qed.

(** X24. Round trip: for a Sample with one class per box on which
    [encode] returns, [encode], [idendity] and [decode] give back the
    Sample's image, its boxes of more than two points in their order,
    unchanged, each with its class, and no scores; the boxes of two
    points or fewer are dropped with their classes. *)
Theorem albumen_roundtrip_keeps_big_polygons (s : Sample) (e : Dict) :
  length (classes s) = length (boxes s) →
  encode s = Ok e →
  decode (idendity e) =
    Ok (mkSample (image s)
          (filter (λ p : polygon, (2 < length p)%nat) (boxes s))
          (select (classes s)
             ((λ p : polygon, bool_decide (2 < length p)%nat) <$> boxes s))
          None).
Proof.
  intros Hlen. rewrite Albumen_encode_eq. cbv zeta.
  destruct (py_max _) as [?|m]; [done|]. simpl.
  case_bool_decide; [|done]. intros [= <-]. unfold idendity.
  erewrite decode_loop_Ok; [simpl; by rewrite fromarray_np_array|]. simpl.
  rewrite groupby_encoded_any.
  apply (decode_loop_groups_any (im_width (image s)) (im_height (image s))
    (boxes s) [] [] (classes s) ([], []) Hlen).
Qed.

End albumen_more.

Lemma albumen_decode_invents_nothing_witness :
  Albumen.decode two_triangles_encoded
    = Ok (mkSample (mkImage 4 2 0) [tri_a; tri_b] [7; 8] None) ∧
  Forall (λ c, c ∈ [7; 8]) [7; 8].
Proof.
  assert (Albumen.decode two_triangles_encoded
    = Ok (mkSample (mkImage 4 2 0) [tri_a; tri_b] [7; 8] None)) as Hd
    by by_evaluation.
  split; [exact Hd|].
  exact (proj2 (albumen_decode_invents_nothing two_triangles_encoded _ Hd)).
Defined.

Lemma albumen_encode_outcomes_witness :
  ∃ p, last (boxes two_triangles) = Some p ∧ p ≠ [].
Proof.
  exact (albumen_encode_outcomes two_triangles eq_refl).
Defined.

Lemma albumen_roundtrip_keeps_big_polygons_witness :
  Albumen.encode triangle_and_segment = Ok triangle_and_segment_encoded ∧
  Albumen.decode (Albumen.idendity triangle_and_segment_encoded)
    = Ok (mkSample (mkImage 4 2 0) [tri_a] [7] None).
Proof.
  assert (Albumen.encode triangle_and_segment
          = Ok triangle_and_segment_encoded) as He by by_evaluation.
  split; [exact He|].
  exact (albumen_roundtrip_keeps_big_polygons triangle_and_segment
           triangle_and_segment_encoded eq_refl He).
Defined.

(** ** [Normalize] of eyeball/models/detector.py *)

Section normalize.
Import Detector.

(** X25. [Normalize.forward] takes pixel values in [0, 1] to values in
    [-1, 1] and loses nothing: halving and adding 0.5 gives the image
    back. *)
Theorem Normalize_forward_range (image : list Qc) :
  Forall (λ x, 0 ≤ x ∧ x ≤ 1)%Qc image →
  Forall (λ y, -(1) ≤ y ∧ y ≤ 1)%Qc (Normalize_forward image) ∧
  (λ y, (y / Q2Qc (2 # 1) + Q2Qc (1 # 2))%Qc) <$> Normalize_forward image
    = image.
Proof.
  intros Hrange. unfold Normalize_forward. split.
  - apply Forall_fmap. eapply Forall_impl; [exact Hrange|].
    intros x [H0 H1]. simpl.
    assert (0 ≤ Q2Qc (2 # 1))%Qc as H2 by by_evaluation.
    split.
    + apply Qcle_trans with ((0 - Q2Qc (1 # 2)) * Q2Qc (2 # 1))%Qc;
        [by_evaluation|].
      apply Qcmult_le_compat_r; [|done].
      by apply Qcplus_le_compat; [|apply Qcle_refl].
    + apply Qcle_trans with ((1 - Q2Qc (1 # 2)) * Q2Qc (2 # 1))%Qc;
        [|by_evaluation].
      apply Qcmult_le_compat_r; [|done].
      by apply Qcplus_le_compat; [|apply Qcle_refl].
  - rewrite <- list_fmap_compose. rewrite <- (list_fmap_id image) at 2.
    apply list_fmap_ext. intros _ x _. simpl.
    rewrite Qcdiv_mult_l by (intros [=]). ring.
Qed.

End normalize.

Lemma Normalize_forward_range_witness :
  Forall (λ y, -(1) ≤ y ∧ y ≤ 1)%Qc
    (Detector.Normalize_forward [q 0 1; q 1 2; q 1 1]) ∧
  (λ y, (y / Q2Qc (2 # 1) + Q2Qc (1 # 2))%Qc)
    <$> Detector.Normalize_forward [q 0 1; q 1 2; q 1 1]
    = [q 0 1; q 1 2; q 1 1].
Proof.
  apply (Normalize_forward_range [q 0 1; q 1 2; q 1 1]).
  repeat constructor; by_evaluation.
Defined.
